(** * btcd block manager (blockmanager.go): sync-peer selection, block and
    inventory handling, chain notifications and the start/stop life cycle.

    The Go code is embedded shallowly: the [blockManager] struct is a record,
    every handler is a function from the state before to the state after, the
    calls that leave the block manager (peer methods, channel sends to peers,
    relay, logging, goroutine management) are appended to a trace of events,
    and the chain engine (btcchain) together with the block database it
    shares with the server is an interface over an abstract state. *)

From stdpp Require Import base numbers option list gmap strings.

Local Open Scope Z_scope.

(** ** Machine integers *)

(** A signed [w]-bit integer is a [Z] reduced to [-2^(w-1) .. 2^(w-1)-1];
    Go conversions and arithmetic wrap around. *)
Definition wrap (w : Z) (z : Z) : Z := (z + 2 ^ (w - 1)) `mod` 2 ^ w - 2 ^ (w - 1).
Definition int32 (z : Z) : Z := wrap 32 z.
Definition int64 (z : Z) : Z := wrap 64 z.

Definition in_int32 (z : Z) : Prop := - 2 ^ 31 <= z < 2 ^ 31.

(** ** container/list

    The candidate list and the per-peer request queue are [*list.List]
    values of Go's standard library.  A list holds its values from front to
    back.  An [*Element] handle is the position of a linked element, or an
    element that [Remove] has unlinked; it keeps its [Value] either way.
    [Remove] clears the [next] and [prev] pointers of the element it
    unlinks, so [Next] of a removed element is nil: a loop [for e :=
    l.Front(); e != nil; e = e.Next()] whose body calls [l.Remove(e)] ends
    with that iteration.

    Positions are only meaningful while a single handle is used and no other
    element in front of it is removed, which is how the block manager's loops
    use them. *)
Module GoList.
(** A [list.List] of values of type [A] is the list of its values. *)
Abbreviation List := list (only parsing).

Section ContainerList.
Context {A : Type}.
#[local] Abbreviation List := (list A) (only parsing).

Record Element := mkElement { pos : option nat; Value : A }.

Definition Front (l : List) : option Element :=
  match l with
  | [] => None
  | x :: _ => Some (mkElement (Some 0%nat) x)
  end.

Definition Next (l : List) (e : Element) : option Element :=
  match pos e with
  | Some i =>
      match l !! S i with
      | Some y => Some (mkElement (Some (S i)) y)
      | None => None
      end
  | None => None
  end.

(** [Remove] unlinks [e] when it is an element of the list and returns the
    list together with the (now unlinked) handle. *)
Definition Remove (l : List) (e : Element) : List * Element :=
  match pos e with
  | Some i => (delete i l, mkElement None (Value e))
  | None => (l, e)
  end.

Definition PushBack (l : List) (v : A) : List := l ++ [v].
End ContainerList.
Global Arguments Element : clear implicits.
End GoList.

(** ** Wire and chain data *)

(** A [btcwire.ShaHash] is a 32-byte array, kept as the 256-bit number it
    spells. *)
Definition ShaHash := N.
Definition zeroHash : ShaHash := 0%N.

(** [btcwire.InvType] is a [uint32]. *)
Definition InvType := N.
Definition InvVect_Error : InvType := 0%N.
Definition InvVect_Tx : InvType := 1%N.
Definition InvVect_Block : InvType := 2%N.

Record InvVect := mkInvVect { Type_ : InvType; Hash : ShaHash }.

Global Instance InvVect_eq_dec : EqDecision InvVect.
Proof. solve_decision. Defined.

Definition BlockLocator := list ShaHash.

(** [btcwire.ServiceFlag] is a [uint64] bit field. *)
Definition SFNodeNetwork : N := 1%N.

(** A [btcutil.Block] is opaque to the block manager, which only asks for
    its hash ([Sha], whose error the source discards) and for the number of
    its transactions. *)
Record Block := mkBlock { Sha : ShaHash; Transactions : nat }.

(** Go errors are kept as their text. *)
Definition error := string.

(** [*peer]: a pointer, compared by address. *)
Definition peerRef := nat.

(** The fields of [peer] that the block manager reads or writes. *)
Record peer := mkPeer {
  lastBlock : Z;                      (* int32 *)
  services : N;                       (* btcwire.ServiceFlag *)
  requestQueue : GoList.List InvVect
}.

Record blockMsg := mkBlockMsg { bm_block : Block; bm_peer : peerRef }.
Record invMsg := mkInvMsg { InvList : list InvVect; im_peer : peerRef }.

Inductive NotificationType :=
  NTOrphanBlock | NTBlockAccepted | NTBlockConnected | NTBlockDisconnected.

(** The dynamic value of [Notification.Data], an [interface{}]: a pointer to
    a hash, a pointer to a block, a nil pointer of either of the two types,
    or anything else, the nil interface included. *)
Inductive NotificationData :=
| DataHash (h : ShaHash)
| DataBlock (blk : Block)
| DataNilHash
| DataNilBlock
| DataOther.

Record Notification := mkNotification { nType : NotificationType; nData : NotificationData }.

(** ** The chain engine and the block database

    [btcchain.BlockChain] and the [btcdb.Db] behind [b.server.db] live outside
    this file.  Their joint state is an abstract type; the methods the block
    manager calls are the interface below. *)
Class ChainEngine (chain : Type) := {
  NewestSha : chain → error + (ShaHash * Z);          (* height is an int64 *)
  DbSync : chain → chain;
  ProcessBlock : chain → Block → chain * option error;
  IsKnownOrphan : chain → ShaHash → bool;
  GetOrphanRoot : chain → ShaHash → ShaHash;
  LatestBlockLocator : chain → error + BlockLocator;
  BlockLocatorFromHash : chain → ShaHash → BlockLocator;
  HaveInventory : chain → InvVect → bool
}.

(** ** Events that leave the block manager *)

Inductive logLevel := LTrace | LInfo | LWarn | LError.

Inductive task := SyncHandler | BlockHandler | ChainNotificationHandler.

Inductive event :=
| PushGetBlocksMsg (p : peerRef) (locator : BlockLocator) (stopHash : ShaHash)
| QueueMessage (p : peerRef) (getData : list InvVect)
| AddKnownInventory (p : peerRef) (iv : InvVect)
| BlockProcessed (p : peerRef) (ok : bool)          (* p.blockProcessed <- ok *)
| RelayInventory (iv : InvVect)
| Log (lvl : logLevel) (text : string)
| Go (t : task)
| CloseQuit
| WgWait
| WgDone.

Section BlockManager.
Context {chain : Type} `{ChainEngine chain}.

(** btcwire.MaxInvPerMsg, a constant of the wire package. *)
Variable MaxInvPerMsg : nat.

(** The [blockManager] struct.  Channels the handlers of this file receive
    from are FIFO lists; [quit] records whether the channel is closed and
    [wg] is the wait group's counter.  [mem] is the memory the [*peer]
    pointers point into and [trace] the events emitted so far.  Every handler
    is one step of the model, so [blockPeerMutex], which makes the accesses
    to [blockPeer] atomic, has no field of its own. *)
Record blockManager := mkBM {
  started : bool;
  shutdown : bool;
  blockChain : chain;
  blockPeer : gmap ShaHash peerRef;
  receivedLogBlocks : Z;            (* int64 *)
  receivedLogTx : Z;                (* int64 *)
  lastBlockLogTime : Z;             (* nanoseconds *)
  syncPeer : option peerRef;
  blockQueue : list blockMsg;
  invQueue : list invMsg;
  wg : nat;
  quit : bool;
  mem : peerRef → peer;
  trace : list event
}.

Definition set_started (v : bool) (b : blockManager) : blockManager :=
  mkBM v (shutdown b) (blockChain b) (blockPeer b) (receivedLogBlocks b)
    (receivedLogTx b) (lastBlockLogTime b) (syncPeer b) (blockQueue b)
    (invQueue b) (wg b) (quit b) (mem b) (trace b).
Definition set_shutdown (v : bool) (b : blockManager) : blockManager :=
  mkBM (started b) v (blockChain b) (blockPeer b) (receivedLogBlocks b)
    (receivedLogTx b) (lastBlockLogTime b) (syncPeer b) (blockQueue b)
    (invQueue b) (wg b) (quit b) (mem b) (trace b).
Definition set_blockChain (v : chain) (b : blockManager) : blockManager :=
  mkBM (started b) (shutdown b) v (blockPeer b) (receivedLogBlocks b)
    (receivedLogTx b) (lastBlockLogTime b) (syncPeer b) (blockQueue b)
    (invQueue b) (wg b) (quit b) (mem b) (trace b).
Definition set_blockPeer (v : gmap ShaHash peerRef) (b : blockManager) : blockManager :=
  mkBM (started b) (shutdown b) (blockChain b) v (receivedLogBlocks b)
    (receivedLogTx b) (lastBlockLogTime b) (syncPeer b) (blockQueue b)
    (invQueue b) (wg b) (quit b) (mem b) (trace b).
Definition set_counters (blocks txs time : Z) (b : blockManager) : blockManager :=
  mkBM (started b) (shutdown b) (blockChain b) (blockPeer b) blocks
    txs time (syncPeer b) (blockQueue b)
    (invQueue b) (wg b) (quit b) (mem b) (trace b).
Definition set_syncPeer (v : option peerRef) (b : blockManager) : blockManager :=
  mkBM (started b) (shutdown b) (blockChain b) (blockPeer b) (receivedLogBlocks b)
    (receivedLogTx b) (lastBlockLogTime b) v (blockQueue b)
    (invQueue b) (wg b) (quit b) (mem b) (trace b).
Definition set_blockQueue (v : list blockMsg) (b : blockManager) : blockManager :=
  mkBM (started b) (shutdown b) (blockChain b) (blockPeer b) (receivedLogBlocks b)
    (receivedLogTx b) (lastBlockLogTime b) (syncPeer b) v
    (invQueue b) (wg b) (quit b) (mem b) (trace b).
Definition set_invQueue (v : list invMsg) (b : blockManager) : blockManager :=
  mkBM (started b) (shutdown b) (blockChain b) (blockPeer b) (receivedLogBlocks b)
    (receivedLogTx b) (lastBlockLogTime b) (syncPeer b) (blockQueue b)
    v (wg b) (quit b) (mem b) (trace b).
Definition set_wg (v : nat) (b : blockManager) : blockManager :=
  mkBM (started b) (shutdown b) (blockChain b) (blockPeer b) (receivedLogBlocks b)
    (receivedLogTx b) (lastBlockLogTime b) (syncPeer b) (blockQueue b)
    (invQueue b) v (quit b) (mem b) (trace b).
Definition set_quit (v : bool) (b : blockManager) : blockManager :=
  mkBM (started b) (shutdown b) (blockChain b) (blockPeer b) (receivedLogBlocks b)
    (receivedLogTx b) (lastBlockLogTime b) (syncPeer b) (blockQueue b)
    (invQueue b) (wg b) v (mem b) (trace b).
Definition set_mem (v : peerRef → peer) (b : blockManager) : blockManager :=
  mkBM (started b) (shutdown b) (blockChain b) (blockPeer b) (receivedLogBlocks b)
    (receivedLogTx b) (lastBlockLogTime b) (syncPeer b) (blockQueue b)
    (invQueue b) (wg b) (quit b) v (trace b).

(** Append one event to the trace. *)
Definition emit (ev : event) (b : blockManager) : blockManager :=
  mkBM (started b) (shutdown b) (blockChain b) (blockPeer b) (receivedLogBlocks b)
    (receivedLogTx b) (lastBlockLogTime b) (syncPeer b) (blockQueue b)
    (invQueue b) (wg b) (quit b) (mem b) (trace b ++ [ev]).

(** [p.requestQueue = q] for the peer behind pointer [p]. *)
Definition set_requestQueue (p : peerRef) (q : GoList.List InvVect)
    (b : blockManager) : blockManager :=
  set_mem (λ r, if decide (r = p)
                then mkPeer (lastBlock (mem b r)) (services (mem b r)) q
                else mem b r) b.

(** *** startSync *)

(** The loop of [startSync] from the element [e] on.  [None] means the
    fuel ran out before the loop finished. *)
Fixpoint startSync_loop (fuel : nat) (b : blockManager) (height : Z)
    (peers : GoList.List peerRef) (e : option (GoList.Element peerRef))
    (bestPeer : option peerRef) : option (GoList.List peerRef * option peerRef) :=
  match e with
  | None => Some (peers, bestPeer)
  | Some e =>
      match fuel with
      | O => None
      | S fuel =>
          let p := GoList.Value e in
          if bool_decide (lastBlock (mem b p) <= int32 height) then
            let '(peers, e) := GoList.Remove peers e in
            startSync_loop fuel b height peers (GoList.Next peers e) bestPeer
          else
            startSync_loop fuel b height peers (GoList.Next peers e) (Some p)
      end
  end.

Definition startSync (b : blockManager) (peers : GoList.List peerRef)
    : option (blockManager * GoList.List peerRef) :=
  match syncPeer b with
  | Some _ => Some (b, peers)
  | None =>
      match NewestSha (blockChain b) with
      | inl err => Some (emit (Log LError ("[BMGR] " +:+ err)) b, peers)
      | inr (_, height) =>
          '(peers, bestPeer) ← startSync_loop (S (length peers)) b height peers
                                 (GoList.Front peers) None;
          match bestPeer with
          | Some bestPeer =>
              match LatestBlockLocator (blockChain b) with
              | inl err =>
                  Some (emit (Log LError "[BMGR] Failed to get block locator for the latest block") b,
                        peers)
              | inr locator =>
                  let b := emit (Log LInfo "[BMGR] Syncing to block height from peer") b in
                  let b := emit (PushGetBlocksMsg bestPeer locator zeroHash) b in
                  Some (set_syncPeer (Some bestPeer) b, peers)
              end
          | None => Some (b, peers)
          end
      end
  end.

(** *** handleNewCandidateMsg *)

Definition handleNewCandidateMsg (b : blockManager) (peers : GoList.List peerRef)
    (p : peerRef) : option (blockManager * GoList.List peerRef) :=
  if shutdown b then Some (b, peers)
  else if decide (N.land (services (mem b p)) SFNodeNetwork ≠ SFNodeNetwork)
  then Some (b, peers)
  else startSync b (GoList.PushBack peers p).

(** *** handleDonePeerMsg *)

(** The removal loop of [handleDonePeerMsg] from the element [e] on. *)
Fixpoint donePeer_loop (fuel : nat) (peers : GoList.List peerRef)
    (e : option (GoList.Element peerRef)) (p : peerRef)
    : option (GoList.List peerRef) :=
  match e with
  | None => Some peers
  | Some e =>
      match fuel with
      | O => None
      | S fuel =>
          if decide (GoList.Value e = p)
          then Some (fst (GoList.Remove peers e))
          else donePeer_loop fuel peers (GoList.Next peers e) p
      end
  end.

Definition handleDonePeerMsg (b : blockManager) (peers : GoList.List peerRef)
    (p : peerRef) : option (blockManager * GoList.List peerRef) :=
  peers ← donePeer_loop (S (length peers)) peers (GoList.Front peers) p;
  match syncPeer b with
  | Some sp =>
      if decide (sp = p) then startSync (set_syncPeer None b) peers
      else Some (b, peers)
  | None => Some (b, peers)
  end.

(** *** logBlockHeight and handleBlockMsg *)

(** [now] is the reading of [time.Now()], in nanoseconds. *)
Definition logBlockHeight (b : blockManager) (numTx height now : Z) : blockManager :=
  let blocks := int64 (receivedLogBlocks b + 1) in
  let txs := int64 (receivedLogTx b + numTx) in
  let duration := now - lastBlockLogTime b in
  if bool_decide (duration < 1000000000 * 10) then
    set_counters blocks txs (lastBlockLogTime b) b
  else
    set_counters 0 0 now (emit (Log LInfo "[BMGR] Processed blocks in the last interval") b).

Definition handleBlockMsg (b : blockManager) (bmsg : blockMsg) (now : Z) : blockManager :=
  let blockSha := Sha (bm_block bmsg) in
  let b := set_blockPeer (<[blockSha := bm_peer bmsg]> (blockPeer b)) b in
  let '(c, err) := ProcessBlock (blockChain b) (bm_block bmsg) in
  let b := set_blockChain c b in
  match err with
  | Some err =>
      let b := set_blockPeer (delete blockSha (blockPeer b)) b in
      emit (Log LWarn "[BMGR] Failed to process block") b
  | None =>
      let b := if negb (IsKnownOrphan (blockChain b) blockSha)
               then set_blockPeer (delete blockSha (blockPeer b)) b
               else b in
      match NewestSha (blockChain b) with
      | inl err => emit (Log LWarn "[BMGR] Failed to obtain latest sha") b
      | inr (_, height) =>
          let b := logBlockHeight b (int64 (Z.of_nat (Transactions (bm_block bmsg))))
                     height now in
          set_blockChain (DbSync (blockChain b)) b
      end
  end.

(** *** handleInvMsg *)

(** The backwards search for the final block entry, from index [n - 1]
    down to 0; -1 when there is none. *)
Fixpoint findLastBlock (invVects : list InvVect) (n : nat) : Z :=
  match n with
  | O => -1
  | S i =>
      match invVects !! i with
      | Some iv =>
          if decide (Type_ iv = InvVect_Block) then Z.of_nat i
          else findLastBlock invVects i
      | None => findLastBlock invVects i
      end
  end.

(** The body of the loop over the inventory list, for entry [iv] at
    index [i]. *)
Definition invEntry (p : peerRef) (lastBlockIdx : Z) (b : blockManager)
    (i : nat) (iv : InvVect) : blockManager :=
  if decide (Type_ iv = InvVect_Block) then
    let b := emit (AddKnownInventory p iv) b in
    if negb (HaveInventory (blockChain b) iv) then
      set_requestQueue p (GoList.PushBack (requestQueue (mem b p)) iv) b
    else if IsKnownOrphan (blockChain b) (Hash iv) then
      let orphanRoot := GetOrphanRoot (blockChain b) (Hash iv) in
      match LatestBlockLocator (blockChain b) with
      | inl err =>
          emit (Log LError "[PEER] Failed to get block locator for the latest block") b
      | inr locator => emit (PushGetBlocksMsg p locator orphanRoot) b
      end
    else if decide (Z.of_nat i = lastBlockIdx) then
      emit (PushGetBlocksMsg p (BlockLocatorFromHash (blockChain b) (Hash iv)) zeroHash) b
    else b
  else b.

(** [for i, iv := range invVects], entered at index [i]. *)
Fixpoint invScan (p : peerRef) (lastBlockIdx : Z) (b : blockManager)
    (i : nat) (invVects : list InvVect) : blockManager :=
  match invVects with
  | [] => b
  | iv :: rest => invScan p lastBlockIdx (invEntry p lastBlockIdx b i iv) (S i) rest
  end.

(** btcwire's [MsgGetData.AddInvVect]: it appends unless the message
    already holds [MaxInvPerMsg] entries, and reports an error then, which
    [handleInvMsg] discards. *)
Definition AddInvVect (gdmsg : list InvVect) (iv : InvVect) : list InvVect :=
  if decide (MaxInvPerMsg < length gdmsg + 1)%nat then gdmsg else gdmsg ++ [iv].

(** The loop that drains the request queue of peer [p], entered with the
    front element [e]. *)
Fixpoint drain_loop (fuel : nat) (p : peerRef) (b : blockManager)
    (e : option (GoList.Element InvVect)) (gdmsg : list InvVect)
    (numRequested : nat) : option (blockManager * list InvVect) :=
  match e with
  | None => Some (b, gdmsg)
  | Some e =>
      match fuel with
      | O => None
      | S fuel =>
          let iv := GoList.Value e in
          let gdmsg := AddInvVect gdmsg iv in
          let b := set_requestQueue p
                     (fst (GoList.Remove (requestQueue (mem b p)) e)) b in
          let numRequested := S numRequested in
          if decide (MaxInvPerMsg ≤ numRequested)%nat then Some (b, gdmsg)
          else drain_loop fuel p b (GoList.Front (requestQueue (mem b p)))
                 gdmsg numRequested
      end
  end.

Definition handleInvMsg (b : blockManager) (imsg : invMsg) : option blockManager :=
  let invVects := InvList imsg in
  let p := im_peer imsg in
  let lastBlockIdx := findLastBlock invVects (length invVects) in
  let b := invScan p lastBlockIdx b 0 invVects in
  '(b, gdmsg) ← drain_loop (S (length (requestQueue (mem b p)))) p b
                  (GoList.Front (requestQueue (mem b p))) [] 0;
  Some (if decide (0 < length gdmsg)%nat then emit (QueueMessage p gdmsg) b else b).

(** *** handleNotifyMsg *)

(** [None] is a panic: of the unchecked type assertion on
    [notification.Data] where the value is no [*btcwire.ShaHash], of
    [*orphanHash] where it is a nil one, and of [block.Sha()], which reads a
    field of its receiver, where the checked assertion has let a nil
    [*btcutil.Block] through. *)
Definition handleNotifyMsg (b : blockManager) (notification : Notification)
    : option blockManager :=
  match nType notification with
  | NTOrphanBlock =>
      match nData notification with
      | DataHash orphanHash =>
          match blockPeer b !! orphanHash with
          | Some peer =>
              let orphanRoot := GetOrphanRoot (blockChain b) orphanHash in
              match LatestBlockLocator (blockChain b) with
              | inl err =>
                  Some (emit (Log LError "[BMGR] Failed to get block locator for the latest block") b)
              | inr locator =>
                  let b := emit (PushGetBlocksMsg peer locator orphanRoot) b in
                  Some (set_blockPeer (delete orphanRoot (blockPeer b)) b)
              end
          | None => Some (emit (Log LWarn "Notification for orphan with no peer") b)
          end
      | DataNilHash => None
      | DataBlock _ | DataNilBlock | DataOther => None
      end
  | NTBlockAccepted =>
      match nData notification with
      | DataBlock block =>
          Some (emit (RelayInventory (mkInvVect InvVect_Block (Sha block))) b)
      | DataNilBlock => None
      | DataHash _ | DataNilHash | DataOther =>
          Some (emit (Log LWarn "[BMGR] Chain notification type not a block.") b)
      end
  | _ => Some b
  end.

(** *** QueueBlock, QueueInv *)

(** The capacity of the channels [blockQueue], [invQueue] and
    [chainNotify]. *)
Definition chanBufferSize : nat := 50.

(** A send on a buffered channel appends to its FIFO.  This is the send that
    finds room, on a channel that holds fewer than [chanBufferSize]
    messages; on a full channel the send waits for a receive, which is not
    represented. *)
Definition QueueBlock (b : blockManager) (block : Block) (p : peerRef) : blockManager :=
  if shutdown b then emit (BlockProcessed p false) b
  else set_blockQueue (blockQueue b ++ [mkBlockMsg block p]) b.

Definition QueueInv (b : blockManager) (inv : list InvVect) (p : peerRef) : blockManager :=
  if shutdown b then b
  else set_invQueue (invQueue b ++ [mkInvMsg inv p]) b.

(** *** Start, Stop *)

Definition Start (b : blockManager) : blockManager :=
  if started b then b
  else
    let b := emit (Log LTrace "[BMGR] Starting block manager") b in
    let b := set_wg (wg b + 3)%nat b in
    let b := emit (Go SyncHandler) b in
    let b := emit (Go BlockHandler) b in
    let b := emit (Go ChainNotificationHandler) b in
    set_started true b.

(** [Stop] returns the state and its error result ([None] is nil).  The
    outer [None] is the panic of closing a closed channel.  [WgWait] marks
    the point where [Stop] waits for the handlers. *)
Definition Stop (b : blockManager) : option (blockManager * option error) :=
  if shutdown b then
    Some (emit (Log LWarn "[BMGR] Block manager is already in the process of shutting down") b,
          None)
  else
    let b := emit (Log LInfo "[BMGR] Block manager shutting down") b in
    let b := set_shutdown true b in
    if quit b then None
    else
      let b := emit CloseQuit (set_quit true b) in
      Some (emit WgWait b, None).

(** *** blockHandler *)

(** The case a [select] of [blockHandler] takes. *)
Inductive selected := RecvBlock (now : Z) | RecvInv | RecvQuit.

(** The code after the loop of a handler. *)
Definition handlerDone (text : string) (b : blockManager) : blockManager :=
  emit (Log LTrace text) (emit WgDone (set_wg (pred (wg b)) b)).

(** One turn of the loop [for !b.shutdown { select { ... } }] of
    [blockHandler], from the test of the flag on, with the case the [select]
    takes.  The result tells whether the goroutine is still running.  A case
    that is not ready (empty queue, open quit channel) cannot be taken: the
    turn leaves the state as it is.  Other goroutines run between turns, not
    within one. *)
Definition blockHandler_turn (c : selected) (b : blockManager)
    : option (blockManager * bool) :=
  if shutdown b then Some (handlerDone "[BMGR] Block handler done" b, false)
  else
    match c with
    | RecvBlock now =>
        match blockQueue b with
        | bmsg :: q =>
            let b := handleBlockMsg (set_blockQueue q b) bmsg now in
            Some (emit (BlockProcessed (bm_peer bmsg) true) b, true)
        | [] => Some (b, true)
        end
    | RecvInv =>
        match invQueue b with
        | imsg :: q =>
            b ← handleInvMsg (set_invQueue q b) imsg;
            Some (b, true)
        | [] => Some (b, true)
        end
    | RecvQuit =>
        if quit b then Some (handlerDone "[BMGR] Block handler done" b, false)
        else Some (b, true)
    end.

(** [blockHandler] run along a schedule of [select] outcomes, from a
    running ([true]) or finished goroutine. *)
Fixpoint blockHandler (sched : list selected) (b : blockManager) (running : bool)
    : option (blockManager * bool) :=
  match sched with
  | [] => Some (b, running)
  | c :: sched =>
      if running then
        '(b, running) ← blockHandler_turn c b;
        blockHandler sched b running
      else Some (b, false)
  end.

End BlockManager.

Global Arguments blockManager : clear implicits.

(** ** A small chain engine to run the handlers on

    [sim_newest] and [sim_locator] are what the database and the chain answer
    to [NewestSha] and [LatestBlockLocator]; a block is known once processed,
    an orphan is listed with its root, and the blocks of [sim_invalid] are
    rejected. *)
Record simChain := mkSim {
  sim_newest : error + (ShaHash * Z);
  sim_locator : error + BlockLocator;
  sim_known : list ShaHash;
  sim_orphans : list (ShaHash * ShaHash);
  sim_invalid : list ShaHash
}.

Definition sim_root (c : simChain) (h : ShaHash) : ShaHash :=
  match list_find (λ e, e.1 = h) (sim_orphans c) with
  | Some (_, e) => e.2
  | None => h
  end.

Global Instance sim_engine : ChainEngine simChain := {|
  NewestSha c := sim_newest c;
  DbSync c := c;
  ProcessBlock c blk :=
    if bool_decide (Sha blk ∈ sim_invalid c) then (c, Some "invalid block"%string)
    else (mkSim (sim_newest c) (sim_locator c) (Sha blk :: sim_known c)
            (sim_orphans c) (sim_invalid c), None);
  IsKnownOrphan c h := bool_decide (h ∈ (sim_orphans c).*1);
  GetOrphanRoot c h := sim_root c h;
  LatestBlockLocator c := sim_locator c;
  BlockLocatorFromHash c h := [h];
  HaveInventory c iv := bool_decide (Hash iv ∈ sim_known c)
|}.

(** A chain at height [height] whose locator is [locator]. *)
Definition simAt (height : Z) (locator : error + BlockLocator) : simChain :=
  mkSim (inr (zeroHash, height)) locator [] [] [].

(** A freshly made block manager over chain [c] with peer memory [m]. *)
Definition newBlockManager (c : simChain) (m : peerRef → peer) : blockManager simChain :=
  mkBM false false c ∅ 0 0 0 None [] [] 0 false m [].

(** Peers with the given announced heights, all full nodes with an empty
    request queue; a pointer beyond the list is a peer at height 0. *)
Definition peersAt (heights : list Z) : peerRef → peer :=
  λ r, mkPeer (default 0 (heights !! r)) SFNodeNetwork [].

(** A block manager at local height [height] whose peers 0, 1, ... announce
    [heights]. *)
Definition syncDemo (heights : list Z) (height : Z) (locator : error + BlockLocator)
    : blockManager simChain :=
  newBlockManager (simAt height locator) (peersAt heights).


(** A block manager that holds orphan 7, whose root is 3, and remembers peer
    0 as the origin of both hashes. *)
Definition notifyDemo (locator : error + BlockLocator) : blockManager simChain :=
  set_blockPeer (<[7%N := 0%nat]> (<[3%N := 0%nat]> ∅))
    (newBlockManager (mkSim (inr (zeroHash, 0)) locator [7%N] [(7%N, 3%N)] [])
       (peersAt [100])).

(** A block manager whose chain rejects block 9. *)
Definition rejectDemo : blockManager simChain :=
  newBlockManager (mkSim (inr (zeroHash, 0)) (inr [zeroHash]) [] [] [9%N]) (peersAt [100]).


(** A block manager that holds orphan 7, whose root is 3; every peer
    announces height 100 and has [queue] as its request queue. *)
Definition invDemo (locator : error + BlockLocator) (queue : list InvVect)
    : blockManager simChain :=
  newBlockManager (mkSim (inr (zeroHash, 0)) locator [7%N] [(7%N, 3%N)] [])
    (λ _, mkPeer 100 SFNodeNetwork queue).

Definition blockInv (h : ShaHash) : InvVect := mkInvVect InvVect_Block h.


(** The handle of the first element of [suf] in the list [pre ++ suf]. *)
Definition handleAt {A : Type} (pre suf : list A) : option (GoList.Element A) :=
  match suf with
  | [] => None
  | x :: _ => Some (GoList.mkElement (Some (length pre)) x)
  end.

(** ** syncHandler

    The channels [newCandidates] and [donePeers] are fed by the server; the
    case a [select] of [syncHandler] takes comes with the peer received. *)
Inductive syncSelected :=
| RecvCandidate (p : peerRef)
| RecvDone (p : peerRef)
| RecvQuitSync.

Section SyncHandler.
Context {chain : Type} `{ChainEngine chain}.

(** One turn of the loop of [syncHandler], from the test of the flag on,
    over the local list [candidatePeers]. *)
Definition syncHandler_turn (c : syncSelected) (b : blockManager chain)
    (candidatePeers : GoList.List peerRef)
    : option (blockManager chain * GoList.List peerRef * bool) :=
  if shutdown b
  then Some (handlerDone "[BMGR] Sync handler done" b, candidatePeers, false)
  else
    match c with
    | RecvCandidate peer =>
        '(b, candidatePeers) ← handleNewCandidateMsg b candidatePeers peer;
        Some (b, candidatePeers, true)
    | RecvDone peer =>
        '(b, candidatePeers) ← handleDonePeerMsg b candidatePeers peer;
        Some (b, candidatePeers, true)
    | RecvQuitSync =>
        if quit b
        then Some (handlerDone "[BMGR] Sync handler done" b, candidatePeers, false)
        else Some (b, candidatePeers, true)
    end.

Fixpoint syncHandler_loop (sched : list syncSelected) (b : blockManager chain)
    (candidatePeers : GoList.List peerRef) (running : bool)
    : option (blockManager chain * GoList.List peerRef * bool) :=
  match sched with
  | [] => Some (b, candidatePeers, running)
  | c :: sched =>
      if running then
        '(b, candidatePeers, running) ← syncHandler_turn c b candidatePeers;
        syncHandler_loop sched b candidatePeers running
      else Some (b, candidatePeers, false)
  end.

(** [syncHandler] run along a schedule of [select] outcomes: it logs its
    start and begins with an empty candidate list. *)
Definition syncHandler (sched : list syncSelected) (b : blockManager chain)
    : option (blockManager chain * GoList.List peerRef * bool) :=
  syncHandler_loop sched (emit (Log LTrace "[BMGR] Starting sync handler") b) [] true.

End SyncHandler.


(** ** Reading a trace *)

(** The value sent on a peer's [blockProcessed] channel, the inventory
    vector added to a peer's known inventory and the get-blocks request
    pushed to a peer, for the events that are one. *)
Definition signalOf (ev : event) : option (peerRef * bool) :=
  match ev with
  | BlockProcessed p ok => Some (p, ok)
  | _ => None
  end.

Definition knownOf (ev : event) : option (peerRef * InvVect) :=
  match ev with
  | AddKnownInventory p iv => Some (p, iv)
  | _ => None
  end.

(** Two states of the block manager that differ at most in the trace and in
    the request queue of peer [p]. *)
Definition sameButQueue {chain : Type} (p : peerRef) (b b' : blockManager chain) : Prop :=
  started b' = started b ∧ shutdown b' = shutdown b
  ∧ blockChain b' = blockChain b ∧ blockPeer b' = blockPeer b
  ∧ receivedLogBlocks b' = receivedLogBlocks b ∧ receivedLogTx b' = receivedLogTx b
  ∧ lastBlockLogTime b' = lastBlockLogTime b ∧ syncPeer b' = syncPeer b
  ∧ blockQueue b' = blockQueue b ∧ invQueue b' = invQueue b
  ∧ wg b' = wg b ∧ quit b' = quit b
  ∧ (∀ r, r ≠ p → mem b' r = mem b r)
  ∧ lastBlock (mem b' p) = lastBlock (mem b p)
  ∧ services (mem b' p) = services (mem b p).


(** ** The events of the inventory scan *)

Section InvEvents.
Context {chain : Type} `{ChainEngine chain}.

(** The events [invEntry] emits for entry [iv] at index [i], read off its
    branches, over the chain [c]. *)
Definition invEntryEvents (c : chain) (p : peerRef) (lastBlockIdx : Z) (i : nat)
    (iv : InvVect) : list event :=
  if decide (Type_ iv = InvVect_Block) then
    AddKnownInventory p iv ::
    (if HaveInventory c iv then
       if IsKnownOrphan c (Hash iv) then
         match LatestBlockLocator c with
         | inl _ => [Log LError "[PEER] Failed to get block locator for the latest block"]
         | inr locator => [PushGetBlocksMsg p locator (GetOrphanRoot c (Hash iv))]
         end
       else if decide (Z.of_nat i = lastBlockIdx) then
         [PushGetBlocksMsg p (BlockLocatorFromHash c (Hash iv)) zeroHash]
       else []
     else [])
  else [].

(** The events of [invScan] from index [i] on. *)
Fixpoint invScanEvents (c : chain) (p : peerRef) (lastBlockIdx : Z) (i : nat)
    (invVects : list InvVect) : list event :=
  match invVects with
  | [] => []
  | iv :: rest =>
      invEntryEvents c p lastBlockIdx i iv ++ invScanEvents c p lastBlockIdx (S i) rest
  end.
End InvEvents.


(** ** The block database on disk: removeRegressionDB and loadBlockDB

    The file system and the database driver (btcdb) are outside this file:
    their state is an abstract [world], a database handle an abstract [db],
    and the calls the two functions make are the interface below.  The calls
    made are recorded in a list of events, with the handle a successful
    open or create returns. *)

(** The fields of the global [cfg] that are read. *)
Record config := mkConfig { RegressionTest : bool; DbType : string; DataDir : string }.

Definition blockDbNamePrefix : string := "blocks".

(** The error of [btcdb.OpenDB], which the source compares with the
    sentinel [btcdb.DbDoesNotExist]. *)
Inductive openError := DbDoesNotExist | OpenFailed (err : error).

Class Storage (world db : Type) := {
  Join : string → string → string;                         (* filepath.Join *)
  Stat : world → string → error + bool;                    (* os.Stat, then IsDir *)
  RemoveAll : world → string → world * option error;
  Remove : world → string → world * option error;
  MkdirAll : world → string → world * option error;
  OpenDB : world → string → string → world * (openError + db);
  CreateDB : world → string → string → world * (error + db);
  dbNewestSha : world → db → error + (ShaHash * Z);
  dbInsertBlock : world → db → Block → world * option error;
  dbClose : world → db → world
}.

Inductive ioEvent {db : Type} :=
| IOLog (text : string)
| IORemoveAll (path : string)
| IORemove (path : string)
| IOMkdirAll (path : string)
| IOOpenDB (dbtype path : string) (handle : option db)
| IOCreateDB (dbtype path : string) (handle : option db)
| IOInsertBlock (d : db) (blk : Block)
| IOClose (d : db).
Global Arguments ioEvent : clear implicits.

Section BlockDb.
Context {world db : Type} `{Storage world db}.

(** The genesis block of the active network, [activeNetParams.genesisBlock]. *)
Variable genesisBlock : Block.

Definition removeRegressionDB (cfg : config) (w : world) (dbPath : string)
    : world * option error * list (ioEvent db) :=
  if negb (RegressionTest cfg) then (w, None, [])
  else
    match Stat w dbPath with
    | inr isDir =>
        let evs := [IOLog "[BMGR] Removing regression test database"] in
        if isDir then
          let '(w, err) := RemoveAll w dbPath in
          match err with
          | Some err => (w, Some err, evs ++ [IORemoveAll dbPath])
          | None => (w, None, evs ++ [IORemoveAll dbPath])
          end
        else
          let '(w, err) := Remove w dbPath in
          match err with
          | Some err => (w, Some err, evs ++ [IORemove dbPath])
          | None => (w, None, evs ++ [IORemove dbPath])
          end
    | inl _ => (w, None, [])
    end.

(** The part of [loadBlockDB] after a handle has been obtained. *)
Definition loadBlockDB_opened (w : world) (d : db) (evs : list (ioEvent db))
    : world * (error + db) * list (ioEvent db) :=
  match dbNewestSha w d with
  | inl err => (dbClose w d, inl err, evs ++ [IOClose d])
  | inr (_, height) =>
      if decide (height = -1) then
        let '(w, err) := dbInsertBlock w d genesisBlock in
        let evs := evs ++ [IOInsertBlock d genesisBlock] in
        match err with
        | Some err => (dbClose w d, inl err, evs ++ [IOClose d])
        | None =>
            (w, inr d,
             evs ++ [IOLog "[BMGR] Inserted genesis block";
                     IOLog "[BMGR] Block database loaded with block height"])
        end
      else (w, inr d, evs ++ [IOLog "[BMGR] Block database loaded with block height"])
  end.

(** The path of the database, as the first statements of [loadBlockDB]
    build it. *)
Definition blockDbPath (cfg : config) : string :=
  let dbName := blockDbNamePrefix +:+ "_" +:+ DbType cfg in
  let dbName := if decide (DbType cfg = "sqlite") then dbName +:+ ".db" else dbName in
  Join (DataDir cfg) dbName.

Definition loadBlockDB (cfg : config) (w : world)
    : world * (error + db) * list (ioEvent db) :=
  let dbPath := blockDbPath cfg in
  let '(w, _, evs) := removeRegressionDB cfg w dbPath in
  let evs := evs ++ [IOLog "[BMGR] Loading block database"] in
  let '(w, res) := OpenDB w (DbType cfg) dbPath in
  match res with
  | inr d => loadBlockDB_opened w d (evs ++ [IOOpenDB (DbType cfg) dbPath (Some d)])
  | inl err =>
      let evs := evs ++ [IOOpenDB (DbType cfg) dbPath None] in
      match err with
      | OpenFailed err => (w, inl err, evs)
      | DbDoesNotExist =>
          let '(w, err) := MkdirAll w (DataDir cfg) in
          let evs := evs ++ [IOMkdirAll (DataDir cfg)] in
          match err with
          | Some err => (w, inl err, evs)
          | None =>
              let '(w, res) := CreateDB w (DbType cfg) dbPath in
              match res with
              | inl err => (w, inl err, evs ++ [IOCreateDB (DbType cfg) dbPath None])
              | inr d =>
                  loadBlockDB_opened w d
                    (evs ++ [IOCreateDB (DbType cfg) dbPath (Some d)])
              end
          end
      end
  end.
End BlockDb.

(** A small disk to run [loadBlockDB] on: the paths that exist, with whether
    they are directories, the databases there with their heights ([-1] for
    an empty one), and the paths whose removal fails. *)
Record simDisk := mkDisk {
  disk_files : list (string * bool);
  disk_dbs : list (string * Z);
  disk_locked : list string
}.

Definition disk_lookup {A : Type} (path : string) (l : list (string * A)) : option A :=
  snd <$> (snd <$> list_find (λ e, e.1 = path) l).

Definition disk_remove (w : simDisk) (path : string) : simDisk * option error :=
  if bool_decide (path ∈ disk_locked w) then (w, Some "permission denied"%string)
  else (mkDisk (filter (λ e, e.1 ≠ path) (disk_files w))
          (filter (λ e, e.1 ≠ path) (disk_dbs w)) (disk_locked w), None).

(** A handle is the path of the database it was opened on. *)
Global Instance sim_storage : Storage simDisk string := {|
  Join dir name := (dir +:+ "/" +:+ name)%string;
  Stat w path :=
    match disk_lookup path (disk_files w) with
    | Some isDir => inr isDir
    | None => inl "no such file"%string
    end;
  RemoveAll w path := disk_remove w path;
  Remove w path := disk_remove w path;
  MkdirAll w path :=
    if bool_decide (path ∈ disk_locked w) then (w, Some "permission denied"%string)
    else (mkDisk ((path, true) :: disk_files w) (disk_dbs w) (disk_locked w), None);
  OpenDB w dbtype path :=
    match disk_lookup path (disk_dbs w) with
    | Some _ => (w, inr path)
    | None => (w, inl DbDoesNotExist)
    end;
  CreateDB w dbtype path :=
    (mkDisk ((path, false) :: disk_files w) ((path, -1) :: disk_dbs w) (disk_locked w),
     inr path);
  dbNewestSha w d :=
    match disk_lookup d (disk_dbs w) with
    | Some height => inr (zeroHash, height)
    | None => inl "database closed"%string
    end;
  dbInsertBlock w d blk :=
    if bool_decide (d ∈ disk_locked w) then (w, Some "read-only database"%string)
    else (mkDisk (disk_files w)
            ((λ e, if decide (e.1 = d) then (e.1, e.2 + 1) else e) <$> disk_dbs w)
            (disk_locked w), None);
  dbClose w d := w
|}.

Definition genesisDemo : Block := mkBlock 1%N 1.

(** Regression-test mode over a disk with an old database directory. *)
Definition regtestCfg : config := mkConfig true "leveldb" "/data".
Definition staleDisk : simDisk :=
  mkDisk [("/data"%string, true); ("/data/blocks_leveldb"%string, true)]
    [("/data/blocks_leveldb"%string, 7)] [].

(** A first start with sqlite on an empty disk, and a start on a fresh
    sqlite database that cannot be written. *)
Definition sqliteCfg : config := mkConfig false "sqlite" "/data".
Definition emptyDisk : simDisk := mkDisk [] [] [].
Definition readOnlyDisk : simDisk :=
  mkDisk [("/data/blocks_sqlite.db"%string, false)]
    [("/data/blocks_sqlite.db"%string, -1)] ["/data/blocks_sqlite.db"%string].


(** ** Proof automation *)

(** Refute the membership [Hin] of an event in a trace given in full. *)
Ltac not_in_trace Hin :=
  apply list_elem_of_In in Hin; simpl in Hin;
  repeat (destruct Hin as [Hin|Hin]; [discriminate Hin |]); exact Hin.

(** Settle a goal about the events of a trace that is given in full. *)
Ltac trace_facts :=
  intros;
  repeat match goal with
         | Hin : _ ∈ _ |- _ => apply list_elem_of_In in Hin; simpl in Hin
         | |- _ ∈ _ => apply list_elem_of_In; simpl
         | |- _ ∉ _ => intros ?
         end;
  intuition (try discriminate; try congruence).

(** Settle a goal about the events of a run of [loadBlockDB] whose lists are
    given in full. *)
Ltac io_step :=
  match goal with
  | Hin : _ ∈ _ |- _ =>
      apply list_elem_of_In in Hin; rewrite ?in_app_iff in Hin; simpl in Hin
  | |- _ ∈ _ => apply list_elem_of_In; rewrite ?in_app_iff; simpl
  | |- _ ∈ _ ∨ _ ∈ _ => rewrite !list_elem_of_In, ?in_app_iff; simpl
  | |- _ ∉ _ => intros ?
  | |- _ ∧ _ => split
  | |- ∀ _, _ => intro
  | Hor : _ ∨ _ |- _ => destruct Hor
  | Hand : _ ∧ _ |- _ => destruct Hand
  | Hfalse : False |- _ => destruct Hfalse
  end.

Ltac io_facts :=
  repeat io_step; simplify_eq; try done; auto 12.

(** ** Properties of the list primitives *)

Section ListFacts.
Context {A : Type}.
Implicit Types (l pre suf : list A) (x : A).

Lemma Front_handleAt l : GoList.Front l = handleAt [] l.
Proof. by destruct l. Qed.

Lemma Next_handleAt pre x suf :
  GoList.Next (pre ++ x :: suf) (GoList.mkElement (Some (length pre)) x)
  = handleAt (pre ++ [x]) suf.
Proof.
  unfold GoList.Next; simpl.
  rewrite lookup_app_r by lia.
  replace (S (length pre) - length pre)%nat with 1%nat by lia.
  destruct suf; simpl; [done |].
  rewrite length_app; simpl. do 3 f_equal. lia.
Qed.

Lemma Remove_handleAt pre x suf :
  GoList.Remove (pre ++ x :: suf) (GoList.mkElement (Some (length pre)) x)
  = (pre ++ suf, GoList.mkElement None x).
Proof.
  unfold GoList.Remove; simpl. f_equal.
  induction pre as [|y pre IH]; simpl; [done | by rewrite IH].
Qed.

Lemma Next_unlinked l x : GoList.Next l (GoList.mkElement None x) = None.
Proof. done. Qed.

Lemma last_cons_default x l (d : option A) :
  from_option Some d (last (x :: l)) = from_option Some (Some x) (last l).
Proof. rewrite last_cons. by destruct (last l). Qed.
End ListFacts.

(** ** Sync-peer selection *)

Section SyncFacts.
Context {chain : Type} `{ChainEngine chain}.
Implicit Types (b : blockManager chain) (peers pre suf : list peerRef) (p : peerRef).

(** The loop of [startSync] stops at the first candidate that is not ahead
    of the local height, which it removes, and leaves with the candidate it
    visited last before that one. *)
Lemma startSync_loop_run b height suf : ∀ pre best fuel,
  (length suf ≤ fuel)%nat →
  startSync_loop fuel b height (pre ++ suf) (handleAt pre suf) best
  = Some (match list_find (λ p, lastBlock (mem b p) <= int32 height) suf with
          | Some (i, _) => (pre ++ delete i suf, from_option Some best (last (take i suf)))
          | None => (pre ++ suf, from_option Some best (last suf))
          end).
Proof.
  induction suf as [|x suf IH]; intros pre best fuel Hfuel.
  - by destruct fuel.
  - destruct fuel as [|fuel]; [simpl in Hfuel; lia |].
    simpl in Hfuel. cbn [handleAt startSync_loop GoList.Value].
    rewrite Remove_handleAt, Next_handleAt, Next_unlinked.
    cbn [list_find]. case_bool_decide as Hx.
    + rewrite decide_True by done. by destruct fuel.
    + rewrite decide_False by done.
      rewrite (cons_middle x pre suf), (assoc_L (++) pre [x] suf), IH by lia.
      destruct (list_find _ suf) as [[i y]|]; simpl.
      * rewrite <- (assoc_L (++) pre [x]). f_equal. f_equal.
        symmetry. apply (last_cons_default x (take i suf) best).
      * f_equal. f_equal.
        symmetry. apply (last_cons_default x suf best).
Qed.

Lemma startSync_loop_front b height peers :
  startSync_loop (S (length peers)) b height peers (GoList.Front peers) None
  = Some (match list_find (λ p, lastBlock (mem b p) <= int32 height) peers with
          | Some (i, _) => (delete i peers, last (take i peers))
          | None => (peers, last peers)
          end).
Proof.
  rewrite Front_handleAt.
  pose proof (startSync_loop_run b height peers [] None (S (length peers))) as Hrun.
  change ([] ++ peers) with peers in Hrun. rewrite Hrun by lia.
  f_equal. destruct (list_find _ peers) as [[i y]|]; simpl; f_equal.
  - by destruct (last (take i peers)).
  - by destruct (last peers).
Qed.

(** [startSync] with no sync peer active and a known local height, with the
    loop replaced by what it computes. *)
Lemma startSync_run b peers hash height :
  syncPeer b = None →
  NewestSha (blockChain b) = inr (hash, height) →
  startSync b peers
  = Some (let found := list_find (λ p, lastBlock (mem b p) <= int32 height) peers in
          let peers' := match found with Some (i, _) => delete i peers | None => peers end in
          match match found with Some (i, _) => last (take i peers) | None => last peers end with
          | Some bestPeer =>
              match LatestBlockLocator (blockChain b) with
              | inl _ =>
                  (emit (Log LError "[BMGR] Failed to get block locator for the latest block") b,
                   peers')
              | inr locator =>
                  (set_syncPeer (Some bestPeer)
                     (emit (PushGetBlocksMsg bestPeer locator zeroHash)
                        (emit (Log LInfo "[BMGR] Syncing to block height from peer") b)),
                   peers')
              end
          | None => (b, peers')
          end).
Proof.
  intros Hsync Hnewest. unfold startSync.
  rewrite Hsync, Hnewest, startSync_loop_front.
  destruct (list_find _ peers) as [[i y]|]; simpl.
  - destruct (last (take i peers)); [|done].
    by destruct (LatestBlockLocator (blockChain b)).
  - destruct (last peers); [|done].
    by destruct (LatestBlockLocator (blockChain b)).
Qed.

(** A local height that fits 32 bits is compared as it is. *)
Lemma int32_in_range z : in_int32 z → int32 z = z.
Proof.
  unfold in_int32, int32, wrap. intros Hz.
  change (2 ^ (32 - 1)) with (2 ^ 31). rewrite Z.mod_small; lia.
Qed.

(** When every candidate is ahead of the local height and both lookups
    succeed, the candidate recorded is the last one of the list and no
    candidate is removed. *)
Lemma startSync_all_ahead b peers hash height locator :
  syncPeer b = None →
  NewestSha (blockChain b) = inr (hash, height) →
  LatestBlockLocator (blockChain b) = inr locator →
  (∀ p, p ∈ peers → int32 height < lastBlock (mem b p)) →
  ∃ b', startSync b peers = Some (b', peers) ∧ syncPeer b' = last peers.
Proof.
  intros Hsync Hnewest Hloc Hall.
  rewrite (startSync_run b peers hash height Hsync Hnewest). cbv zeta.
  destruct (list_find _ peers) as [[i y]|] eqn:Hfind.
  { apply list_find_Some in Hfind as (Hy & Hbehind & _).
    apply list_elem_of_lookup_2, Hall in Hy. simpl in Hbehind. lia. }
  rewrite Hloc. destruct (last peers) as [bestPeer|]; by eexists.
Qed.




End SyncFacts.



(** On an empty chain with one candidate announcing height 100, the
    get-blocks request carries the chain's locator and the zero stop hash,
    and the candidate becomes the sync peer. *)
Example startSync_first_sync :
  (λ r, (syncPeer r.1, trace r.1, r.2))
    <$> startSync (syncDemo [100] 0 (inr [zeroHash])) [0%nat]
  = Some (Some 0%nat,
          [Log LInfo "[BMGR] Syncing to block height from peer";
           PushGetBlocksMsg 0%nat [zeroHash] zeroHash],
          [0%nat]).
Proof. reflexivity. Qed.

(** A candidate behind the local height in front of one that is ahead: the
    first is removed, the loop ends there, and no sync peer is recorded. *)
Example startSync_stale_first :
  (λ r, (syncPeer r.1, trace r.1, r.2))
    <$> startSync (syncDemo [5; 200] 10 (inr [zeroHash])) [0%nat; 1%nat]
  = Some (None, [], [1%nat]).
Proof. reflexivity. Qed.

(** C2 at a failing input: with the local height at 10 and two candidates
    that both announce height 5, the selection pass removes the first one
    only; the second one stays in the candidate list. *)
Theorem startSync_keeps_second_stale_candidate :
  snd <$> startSync (syncDemo [5; 5] 10 (inr [zeroHash])) [0%nat; 1%nat] = Some [1%nat]
  ∧ lastBlock (mem (syncDemo [5; 5] 10 (inr [zeroHash])) 1%nat) <= 10.
Proof. split; [reflexivity | by vm_compute]. Qed.

(** C3 at a failing input: with the local height at 0 and two candidates
    announcing heights 100 and 200, the sync peer recorded is the second
    candidate, the one visited last, and the request goes to it. *)
Theorem startSync_records_last_candidate :
  syncPeer ∘ fst <$> startSync (syncDemo [100; 200] 0 (inr [zeroHash])) [0%nat; 1%nat]
  = Some (Some 1%nat)
  ∧ trace ∘ fst <$> startSync (syncDemo [100; 200] 0 (inr [zeroHash])) [0%nat; 1%nat]
    = Some [Log LInfo "[BMGR] Syncing to block height from peer";
            PushGetBlocksMsg 1%nat [zeroHash] zeroHash].
Proof. split; reflexivity. Qed.

(** ** Candidate bookkeeping *)

Section CandidateFacts.
Context {chain : Type} `{ChainEngine chain}.
Implicit Types (b : blockManager chain) (peers pre suf l : list peerRef) (p : peerRef).

(** The removal loop of [handleDonePeerMsg] unlinks the first element
    whose value is the peer, if there is one. *)
Lemma donePeer_loop_run p suf : ∀ pre fuel,
  (length suf ≤ fuel)%nat →
  donePeer_loop fuel (pre ++ suf) (handleAt pre suf) p
  = Some (match list_find (λ x, x = p) suf with
          | Some (i, _) => pre ++ delete i suf
          | None => pre ++ suf
          end).
Proof.
  induction suf as [|x suf IH]; intros pre fuel Hfuel.
  - by destruct fuel.
  - destruct fuel as [|fuel]; [simpl in Hfuel; lia |].
    simpl in Hfuel. cbn [handleAt donePeer_loop GoList.Value list_find].
    destruct (decide (x = p)) as [Hx|Hx].
    + by rewrite Remove_handleAt.
    + rewrite Next_handleAt, (cons_middle x pre suf), (assoc_L (++) pre [x] suf), IH by lia.
      destruct (list_find _ suf) as [[i y]|]; simpl; [|done].
      by rewrite <- (assoc_L (++) pre [x]).
Qed.

Lemma donePeer_loop_front p peers :
  donePeer_loop (S (length peers)) peers (GoList.Front peers) p
  = Some (match list_find (λ x, x = p) peers with
          | Some (i, _) => delete i peers
          | None => peers
          end).
Proof.
  rewrite Front_handleAt.
  pose proof (donePeer_loop_run p peers [] (S (length peers))) as Hrun.
  change ([] ++ peers) with peers in Hrun. rewrite Hrun by lia.
  by destruct (list_find _ peers) as [[i y]|].
Qed.

(** Removing the first occurrence, spelled out on the list. *)
Lemma remove_first_split p l :
  match list_find (λ x, x = p) l with
  | Some (i, _) => ∃ l1 l2, l = l1 ++ p :: l2 ∧ (p ∉ l1) ∧ delete i l = l1 ++ l2
  | None => p ∉ l
  end.
Proof.
  destruct (list_find _ l) as [[i y]|] eqn:Hfind.
  - apply list_find_Some in Hfind as (Hi & -> & Hbefore).
    exists (take i l), (drop (S i) l). split; [|split].
    + by rewrite take_drop_middle.
    + intros Hin. apply list_elem_of_lookup in Hin as [j Hj].
      apply lookup_take_Some in Hj as [Hj Hlt].
      by apply (Hbefore j p Hj Hlt).
    + apply delete_take_drop.
  - apply list_find_None in Hfind. intros Hin.
    rewrite Forall_forall in Hfind. by apply (Hfind p Hin).
Qed.







End CandidateFacts.



(** With no sync peer recorded, and with the sync peer still ahead of the
    local height, a done signal for a peer that holds two entries leaves
    one. *)
Example done_twice_listed_no_sync_peer :
  snd <$> handleDonePeerMsg (syncDemo [100] 0 (inr [zeroHash])) [0%nat; 0%nat] 0%nat
  = Some [0%nat].
Proof. reflexivity. Qed.

Example done_twice_listed_sync_peer_ahead :
  (λ r, (syncPeer r.1, r.2))
    <$> handleDonePeerMsg (set_syncPeer (Some 0%nat) (syncDemo [100] 0 (inr [zeroHash])))
          [0%nat; 0%nat] 0%nat
  = Some (Some 0%nat, [0%nat]).
Proof. reflexivity. Qed.

(** ** Block ingest, notifications and life cycle *)

Section IngestFacts.
Context {chain : Type} `{ChainEngine chain}.
Implicit Types (b : blockManager chain) (p : peerRef).

(** C7.  When [ProcessBlock] returns an error, [handleBlockMsg] leaves the
    block-origin map without an entry for the block's hash (the map is the
    one before with that key deleted) and leaves the progress counters and
    the time of the last log line as they were. *)
Theorem handleBlockMsg_rejected b bmsg now c err :
  ProcessBlock (blockChain b) (bm_block bmsg) = (c, Some err) →
  blockPeer (handleBlockMsg b bmsg now) !! Sha (bm_block bmsg) = None
  ∧ blockPeer (handleBlockMsg b bmsg now) = delete (Sha (bm_block bmsg)) (blockPeer b)
  ∧ receivedLogBlocks (handleBlockMsg b bmsg now) = receivedLogBlocks b
  ∧ receivedLogTx (handleBlockMsg b bmsg now) = receivedLogTx b
  ∧ lastBlockLogTime (handleBlockMsg b bmsg now) = lastBlockLogTime b.
Proof.
  intros Hprocess. unfold handleBlockMsg. simpl. rewrite Hprocess. simpl.
  rewrite delete_insert_eq.
  split; [apply lookup_delete_eq |]. by repeat split.
Qed.

(** C6, amended.  For an orphan-accepted notification: when the
    block-origin map has an entry for the orphan's hash and the locator
    lookup succeeds, [handleNotifyMsg] sends the recorded peer one
    get-blocks request from the latest locator to the orphan's root and
    deletes the map entry keyed by the root; when the lookup fails it logs
    an error, sends nothing and leaves the map as it is; when the map has
    no entry it logs a warning, sends nothing and leaves the map as it
    is. *)
Theorem handleNotifyMsg_orphan b orphanHash :
  ∃ b', handleNotifyMsg b (mkNotification NTOrphanBlock (DataHash orphanHash)) = Some b'
    ∧ (∀ peer locator,
         blockPeer b !! orphanHash = Some peer →
         LatestBlockLocator (blockChain b) = inr locator →
         trace b' = trace b ++ [PushGetBlocksMsg peer locator
                                  (GetOrphanRoot (blockChain b) orphanHash)]
         ∧ blockPeer b' = delete (GetOrphanRoot (blockChain b) orphanHash) (blockPeer b))
    ∧ (∀ peer err,
         blockPeer b !! orphanHash = Some peer →
         LatestBlockLocator (blockChain b) = inl err →
         (∃ text, trace b' = trace b ++ [Log LError text])
         ∧ blockPeer b' = blockPeer b)
    ∧ (blockPeer b !! orphanHash = None →
         (∃ text, trace b' = trace b ++ [Log LWarn text])
         ∧ blockPeer b' = blockPeer b).
Proof.
  unfold handleNotifyMsg. simpl.
  destruct (blockPeer b !! orphanHash) as [peer|] eqn:Hpeer.
  - destruct (LatestBlockLocator (blockChain b)) as [err|locator] eqn:Hloc.
    + eexists. split; [done |]. split; [intros ?? _ ?; discriminate |].
      split; [|intros ?; discriminate].
      intros ?? _ _. split; [by eexists | done].
    + eexists. split; [done |]. split.
      * intros peer' locator' [= <-] [= <-]. by split.
      * split; [intros ?? _ ?; discriminate | intros ?; discriminate].
  - eexists. split; [done |]. split; [intros ?? ?; discriminate |].
    split; [intros ?? ?; discriminate |].
    intros _. split; [by eexists | done].
Qed.

(** C8.  [Start] on a started manager returns the state as it is (no task
    launched, nothing logged), so [Start] twice is [Start] once.  [Stop]
    on a manager whose shutdown has begun returns nil and the state as it
    is but for one warning in the log: the quit channel is not closed again
    and the handlers are not waited for; this is what a second [Stop]
    does. *)
Theorem Start_Stop_idempotent b :
  (started b = true → Start b = b)
  ∧ Start (Start b) = Start b
  ∧ (shutdown b = true →
       ∃ text, Stop b = Some (emit (Log LWarn text) b, None))
  ∧ (∀ b1 r, Stop b = Some (b1, r) →
       ∃ text, Stop b1 = Some (emit (Log LWarn text) b1, None)).
Proof.
  split; [|split; [|split]].
  - intros Hstarted. unfold Start. by rewrite Hstarted.
  - unfold Start. destruct (started b) eqn:Hstarted; [by rewrite Hstarted | done].
  - intros Hshut. unfold Stop. rewrite Hshut. by eexists.
  - intros b1 r. unfold Stop at 1.
    destruct (shutdown b) eqn:Hshut.
    + intros [= <- <-]. unfold Stop. simpl. rewrite Hshut. by eexists.
    + simpl. destruct (quit b); [discriminate |].
      intros [= <- <-]. unfold Stop. simpl. by eexists.
Qed.
End IngestFacts.

(** C6 as stated fails where the locator lookup fails: the origin map has an
    entry for orphan 7 (and one for its root 3), yet no request is sent and
    the entry keyed by the root stays. *)
Lemma handleNotifyMsg_locator_failure :
  ∃ b', handleNotifyMsg (notifyDemo (inl "no locator"%string))
          (mkNotification NTOrphanBlock (DataHash 7%N)) = Some b'
    ∧ blockPeer (notifyDemo (inl "no locator"%string)) !! 7%N = Some 0%nat
    ∧ GetOrphanRoot (blockChain (notifyDemo (inl "no locator"%string))) 7%N = 3%N
    ∧ trace b' = [Log LError "[BMGR] Failed to get block locator for the latest block"]
    ∧ blockPeer b' !! 3%N = Some 0%nat.
Proof. eexists. repeat split; reflexivity. Qed.

(** With a locator, the request goes to peer 0 and the entry keyed by the
    root 3 is gone. *)
Lemma handleNotifyMsg_orphan_witness :
  blockPeer (notifyDemo (inr [zeroHash])) !! 7%N = Some 0%nat
  ∧ LatestBlockLocator (blockChain (notifyDemo (inr [zeroHash]))) = inr [zeroHash]
  ∧ ∃ b', handleNotifyMsg (notifyDemo (inr [zeroHash]))
            (mkNotification NTOrphanBlock (DataHash 7%N)) = Some b'
      ∧ trace b' = [PushGetBlocksMsg 0%nat [zeroHash] 3%N]
      ∧ blockPeer b' !! 3%N = None.
Proof.
  split; [reflexivity |]. split; [reflexivity |].
  destruct (handleNotifyMsg_orphan (notifyDemo (inr [zeroHash])) 7%N)
    as (b' & Hrun & Hfound & _).
  exists b'. split; [exact Hrun |].
  destruct (Hfound 0%nat [zeroHash] eq_refl eq_refl) as [Htrace Hmap].
  split; [exact Htrace |]. rewrite Hmap. reflexivity.
Defined.

(** Block 9 is rejected and leaves no entry behind. *)
Lemma handleBlockMsg_rejected_witness :
  ProcessBlock (blockChain rejectDemo) (mkBlock 9%N 1)
  = (blockChain rejectDemo, Some "invalid block"%string)
  ∧ blockPeer (handleBlockMsg rejectDemo (mkBlockMsg (mkBlock 9%N 1) 0%nat) 0) !! 9%N = None.
Proof.
  split; [reflexivity |].
  apply (handleBlockMsg_rejected rejectDemo (mkBlockMsg (mkBlock 9%N 1) 0%nat) 0
           (blockChain rejectDemo) "invalid block"%string).
  reflexivity.
Defined.

(** A started manager whose shutdown flag is set. *)
Lemma Start_Stop_idempotent_witness :
  started (set_shutdown true (Start rejectDemo)) = true
  ∧ shutdown (set_shutdown true (Start rejectDemo)) = true
  ∧ Start (set_shutdown true (Start rejectDemo)) = set_shutdown true (Start rejectDemo)
  ∧ ∃ text, Stop (set_shutdown true (Start rejectDemo))
            = Some (emit (Log LWarn text) (set_shutdown true (Start rejectDemo)), None).
Proof.
  split; [reflexivity |]. split; [reflexivity |].
  destruct (Start_Stop_idempotent (set_shutdown true (Start rejectDemo)))
    as (Hstart & _ & Hstop & _).
  split; [exact (Hstart eq_refl) | exact (Hstop eq_refl)].
Defined.

(** ** Block submission and the block handler *)

Section QueueFacts.
Context {chain : Type} `{ChainEngine chain}.
Variable MaxInvPerMsg : nat.
Implicit Types (b : blockManager chain) (p : peerRef).

(** [handleBlockMsg] itself only writes to the log: it sends nothing on a
    peer's [blockProcessed] channel. *)
Lemma handleBlockMsg_trace b bmsg now :
  ∃ evs, trace (handleBlockMsg b bmsg now) = trace b ++ evs
         ∧ ∀ ev, ev ∈ evs → ∃ lvl text, ev = Log lvl text.
Proof.
  unfold handleBlockMsg. cbv zeta.
  destruct (ProcessBlock _ _) as [c [err|]].
  { eexists [_]. split; [done |]. intros ev ->%list_elem_of_singleton. eauto. }
  match goal with
  | |- context [NewestSha (blockChain ?x)] => set (b0 := x)
  end.
  assert (Hb0 : trace b0 = trace b) by (subst b0; by destruct (negb _)).
  destruct (NewestSha (blockChain b0)) as [err|[hash height]].
  - simpl. rewrite Hb0. eexists [_]. split; [done |].
    intros ev ->%list_elem_of_singleton. eauto.
  - unfold logBlockHeight. case_bool_decide; simpl; rewrite Hb0.
    + exists []. split; [by rewrite app_nil_r |]. by intros ev ?%elem_of_nil.
    + eexists [_]. split; [done |]. intros ev ->%list_elem_of_singleton. eauto.
Qed.

(** C9, amended.  [QueueBlock] after shutdown has begun sends one [false]
    to the peer and does not enqueue the block; otherwise it enqueues the
    block and sends nothing.  When the block handler, not yet shut down,
    takes a block message from the queue, it runs [handleBlockMsg], which
    sends nothing to the peer, and then sends one [true], whether or not
    validation succeeded.  A handler that finds the shutdown flag set
    leaves without taking a message and without a signal. *)
Theorem QueueBlock_signal b block p :
  (shutdown b = true → QueueBlock b block p = emit (BlockProcessed p false) b)
  ∧ (shutdown b = false →
       QueueBlock b block p = set_blockQueue (blockQueue b ++ [mkBlockMsg block p]) b)
  ∧ (∀ q now,
       shutdown b = false →
       blockQueue b = mkBlockMsg block p :: q →
       ∃ b1 evs,
         blockHandler_turn MaxInvPerMsg (RecvBlock now) b
         = Some (emit (BlockProcessed p true) b1, true)
         ∧ b1 = handleBlockMsg (set_blockQueue q b) (mkBlockMsg block p) now
         ∧ trace b1 = trace b ++ evs
         ∧ ∀ ev, ev ∈ evs → ∃ lvl text, ev = Log lvl text)
  ∧ (∀ c,
       shutdown b = true →
       ∃ b' evs,
         blockHandler_turn MaxInvPerMsg c b = Some (b', false)
         ∧ blockQueue b' = blockQueue b
         ∧ trace b' = trace b ++ evs
         ∧ ∀ q ok, BlockProcessed q ok ∉ evs).
Proof.
  split; [|split; [|split]].
  - intros Hshut. unfold QueueBlock. by rewrite Hshut.
  - intros Hshut. unfold QueueBlock. by rewrite Hshut.
  - intros q now Hshut Hqueue. unfold blockHandler_turn. rewrite Hshut, Hqueue.
    destruct (handleBlockMsg_trace (set_blockQueue q b) (mkBlockMsg block p) now)
      as (evs & Htrace & Hlog).
    eexists _, evs. split; [done |]. split; [done |]. by split.
  - intros c Hshut. unfold blockHandler_turn. rewrite Hshut.
    eexists _, [_; _]. split; [done |]. split; [done |]. split.
    + simpl. by rewrite <- (assoc_L (++)).
    + intros q ok Hin. apply elem_of_cons in Hin as [?|Hin]; [discriminate |].
      apply list_elem_of_singleton in Hin. discriminate.
Qed.
End QueueFacts.

(** C9 as stated fails where shutdown begins while a block is queued.  Peer
    0 submits block 9 to a started manager, which enqueues it; then [Stop]
    runs.  Whatever the block handler selects from then on, it leaves at the
    shutdown flag: the block stays in the queue and peer 0 never gets a
    signal. *)
Lemma QueueBlock_without_signal :
  ∃ b2,
    shutdown (Start rejectDemo) = false
    ∧ Stop (QueueBlock (Start rejectDemo) (mkBlock 9%N 1) 0%nat) = Some (b2, None)
    ∧ ∀ MaxInvPerMsg sched, ∃ b3 running,
        blockHandler MaxInvPerMsg sched b2 true = Some (b3, running)
        ∧ blockQueue b3 = [mkBlockMsg (mkBlock 9%N 1) 0%nat]
        ∧ ∀ ok, BlockProcessed 0%nat ok ∉ trace b3.
Proof.
  eexists. split; [reflexivity |]. split; [vm_compute; reflexivity |].
  intros MaxInvPerMsg [|c sched].
  - eexists _, _. split; [reflexivity |]. split; [reflexivity |].
    intros ok Hin. by not_in_trace Hin.
  - eexists _, _. split; [destruct sched; vm_compute; reflexivity |].
    split; [reflexivity |].
    intros ok Hin. by not_in_trace Hin.
Qed.

(** A block submitted before shutdown and taken by the handler. *)
Lemma QueueBlock_signal_witness :
  shutdown (QueueBlock rejectDemo (mkBlock 9%N 1) 0%nat) = false
  ∧ blockQueue (QueueBlock rejectDemo (mkBlock 9%N 1) 0%nat)
    = [mkBlockMsg (mkBlock 9%N 1) 0%nat]
  ∧ ∃ b1 evs,
      blockHandler_turn 2 (RecvBlock 0) (QueueBlock rejectDemo (mkBlock 9%N 1) 0%nat)
      = Some (emit (BlockProcessed 0%nat true) b1, true)
      ∧ trace b1 = evs.
Proof.
  split; [reflexivity |]. split; [reflexivity |].
  destruct (QueueBlock_signal 2 (QueueBlock rejectDemo (mkBlock 9%N 1) 0%nat)
              (mkBlock 9%N 1) 0%nat) as (_ & _ & Hturn & _).
  destruct (Hturn [] 0 eq_refl eq_refl) as (b1 & evs & Hrun & _ & Htrace & _).
  exists b1, evs. split; [exact Hrun | exact Htrace].
Defined.

(** ** Inventory handling *)

Section InvFacts.
Context {chain : Type} `{ChainEngine chain}.
Variable MaxInvPerMsg : nat.
Hypothesis MaxInvPerMsg_pos : (0 < MaxInvPerMsg)%nat.
Implicit Types (b : blockManager chain) (p : peerRef) (iv : InvVect)
  (evs : list event) (q gdmsg : list InvVect).

Lemma requestQueue_set p q b :
  requestQueue (mem (set_requestQueue p q b) p) = q.
Proof. unfold set_requestQueue. simpl. by rewrite decide_True. Qed.

(** What one entry of the inventory list does: the events it emits, and
    the request queue, to which it is appended exactly when it is a block
    the chain does not have. *)
Lemma invEntry_run p idx b i iv :
  ∃ evs,
    trace (invEntry p idx b i iv) = trace b ++ evs
    ∧ blockChain (invEntry p idx b i iv) = blockChain b
    ∧ requestQueue (mem (invEntry p idx b i iv) p)
      = requestQueue (mem b p)
        ++ (if decide (Type_ iv = InvVect_Block ∧ HaveInventory (blockChain b) iv = false)
            then [iv] else [])
    ∧ (∀ r m, QueueMessage r m ∉ evs)
    ∧ (Type_ iv = InvVect_Block →
       HaveInventory (blockChain b) iv = true →
       IsKnownOrphan (blockChain b) (Hash iv) = true →
       ∀ locator, LatestBlockLocator (blockChain b) = inr locator →
         PushGetBlocksMsg p locator (GetOrphanRoot (blockChain b) (Hash iv)) ∈ evs)
    ∧ (∀ err, LatestBlockLocator (blockChain b) = inl err →
       ∀ r l s, PushGetBlocksMsg r l s ∈ evs →
         s = zeroHash ∧ IsKnownOrphan (blockChain b) (Hash iv) = false
         ∧ l = BlockLocatorFromHash (blockChain b) (Hash iv))
    ∧ (Type_ iv = InvVect_Block →
       HaveInventory (blockChain b) iv = true →
       IsKnownOrphan (blockChain b) (Hash iv) = true →
       ∀ err, LatestBlockLocator (blockChain b) = inl err →
         Log LError "[PEER] Failed to get block locator for the latest block" ∈ evs).
Proof.
  unfold invEntry.
  destruct (decide (Type_ iv = InvVect_Block)) as [Htype|Htype]; simpl.
  2:{ exists []. rewrite (decide_False (P := _ ∧ _)) by (by intros [? _]).
      rewrite !app_nil_r. split_and!; try done; trace_facts. }
  destruct (HaveInventory (blockChain b) iv) eqn:Hhave; simpl.
  2:{ exists [AddKnownInventory p iv].
      rewrite (decide_True (P := p = p)), (decide_True (P := _ ∧ _)) by done.
      split_and!; try done; trace_facts. }
  rewrite (decide_False (P := _ ∧ _)) by (by intros [_ ?]). rewrite app_nil_r.
  destruct (IsKnownOrphan (blockChain b) (Hash iv)) eqn:Horphan.
  - destruct (LatestBlockLocator (blockChain b)) as [err|locator] eqn:Hloc.
    + eexists [_; _]. simpl. rewrite <- (assoc_L (++)).
      split_and!; try done; trace_facts.
    + eexists [_; _]. simpl. rewrite <- (assoc_L (++)).
      split_and!; try done; trace_facts.
  - destruct (decide (Z.of_nat i = idx)).
    + eexists [_; _]. simpl. rewrite <- (assoc_L (++)).
      split_and!; try done; trace_facts.
    + eexists [_]. simpl. split_and!; try done; trace_facts.
Qed.

(** The scan of the whole inventory list. *)
Lemma invScan_run p idx ivs : ∀ b i,
  ∃ evs,
    trace (invScan p idx b i ivs) = trace b ++ evs
    ∧ blockChain (invScan p idx b i ivs) = blockChain b
    ∧ requestQueue (mem (invScan p idx b i ivs) p)
      = requestQueue (mem b p)
        ++ filter (λ iv, Type_ iv = InvVect_Block
                         ∧ HaveInventory (blockChain b) iv = false) ivs
    ∧ (∀ r m, QueueMessage r m ∉ evs)
    ∧ (∀ iv, iv ∈ ivs →
       Type_ iv = InvVect_Block →
       HaveInventory (blockChain b) iv = true →
       IsKnownOrphan (blockChain b) (Hash iv) = true →
       ∀ locator, LatestBlockLocator (blockChain b) = inr locator →
         PushGetBlocksMsg p locator (GetOrphanRoot (blockChain b) (Hash iv)) ∈ evs)
    ∧ (∀ err, LatestBlockLocator (blockChain b) = inl err →
       ∀ r l s, PushGetBlocksMsg r l s ∈ evs →
         s = zeroHash
         ∧ ∃ iv, iv ∈ ivs ∧ IsKnownOrphan (blockChain b) (Hash iv) = false
                 ∧ l = BlockLocatorFromHash (blockChain b) (Hash iv))
    ∧ (∀ iv, iv ∈ ivs →
       Type_ iv = InvVect_Block →
       HaveInventory (blockChain b) iv = true →
       IsKnownOrphan (blockChain b) (Hash iv) = true →
       ∀ err, LatestBlockLocator (blockChain b) = inl err →
         Log LError "[PEER] Failed to get block locator for the latest block" ∈ evs).
Proof.
  induction ivs as [|iv ivs IH]; intros b i; simpl.
  { exists []. rewrite !app_nil_r. split_and!; try done.
    - by intros r m ?%elem_of_nil.
    - by intros iv ?%elem_of_nil.
    - by intros err _ r l s ?%elem_of_nil.
    - by intros iv ?%elem_of_nil. }
  destruct (invEntry_run p idx b i iv) as (evs1 & Ht1 & Hc1 & Hq1 & Hm1 & Ho1 & He1 & Hl1).
  destruct (IH (invEntry p idx b i iv) (S i))
    as (evs2 & Ht2 & Hc2 & Hq2 & Hm2 & Ho2 & He2 & Hl2).
  rewrite Hc1 in Hc2, Hq2, Ho2, He2, Hl2.
  exists (evs1 ++ evs2). rewrite Ht2, Ht1, Hq2, Hq1.
  split_and!.
  - by rewrite (assoc_L (++)).
  - done.
  - rewrite filter_cons, <- (assoc_L (++)).
    by destruct (decide (Type_ iv = InvVect_Block ∧ HaveInventory (blockChain b) iv = false)).
  - intros r m [Hin|Hin]%elem_of_app; [by eapply Hm1 | by eapply Hm2].
  - intros iv' [->|Hin]%elem_of_cons Htype Hhave Horphan locator Hloc;
      apply elem_of_app; [left; by apply Ho1 | right; by apply Ho2].
  - intros err Hloc r l s [Hin|Hin]%elem_of_app.
    + destruct (He1 err Hloc r l s Hin) as (-> & Horphan & ->).
      split; [done |]. exists iv. split; [apply list_elem_of_here | done].
    + destruct (He2 err Hloc r l s Hin) as (-> & iv' & Hin' & Horphan & ->).
      split; [done |]. exists iv'. split; [by apply list_elem_of_further | done].
  - intros iv' [->|Hin]%elem_of_cons Htype Hhave Horphan err Hloc;
      apply elem_of_app; [left; by eapply Hl1 | right; by eapply Hl2].
Qed.

(** The drain loop moves entries from the front of the queue to the
    message until the queue is empty or [MaxInvPerMsg] entries have been
    moved, and emits nothing. *)
Lemma drain_loop_run p q : ∀ b gdmsg n fuel,
  requestQueue (mem b p) = q →
  length gdmsg = n →
  (n < MaxInvPerMsg)%nat →
  (length q ≤ fuel)%nat →
  ∃ b',
    drain_loop MaxInvPerMsg fuel p b (GoList.Front q) gdmsg n
    = Some (b', gdmsg ++ take (MaxInvPerMsg - n) q)
    ∧ requestQueue (mem b' p) = drop (MaxInvPerMsg - n) q
    ∧ trace b' = trace b
    ∧ blockChain b' = blockChain b.
Proof.
  induction q as [|x q IH]; intros b gdmsg n fuel Hq Hlen Hn Hfuel.
  { exists b. rewrite take_nil, drop_nil, app_nil_r. by destruct fuel. }
  destruct fuel as [|fuel]; [simpl in Hfuel; lia |]. simpl in Hfuel.
  cbn [GoList.Front drain_loop GoList.Value]. rewrite Hq.
  unfold AddInvVect. rewrite (decide_False (P := (_ < _)%nat)) by lia.
  cbn [GoList.Remove GoList.pos fst].
  change (delete 0%nat (x :: q)) with q.
  destruct (decide (MaxInvPerMsg ≤ S n)%nat) as [Hfull|Hmore].
  - assert (MaxInvPerMsg - n = 1)%nat as -> by lia.
    eexists. split; [done |]. by rewrite requestQueue_set.
  - rewrite requestQueue_set.
    destruct (IH (set_requestQueue p q b) (gdmsg ++ [x]) (S n) fuel) as (b' & Hrun & Hq' & Ht' & Hc');
      [apply requestQueue_set | rewrite length_app; simpl; lia | lia | lia |].
    exists b'. rewrite Hrun, Hq', Ht', Hc'.
    replace (MaxInvPerMsg - n)%nat with (S (MaxInvPerMsg - S n)) by lia.
    by rewrite <- (assoc_L (++)).
Qed.

(** [handleInvMsg] as a whole: the scan followed by the drain. *)
Lemma handleInvMsg_run b imsg :
  ∃ b' evs,
    handleInvMsg MaxInvPerMsg b imsg = Some b'
    ∧ requestQueue (mem b' (im_peer imsg))
      = drop MaxInvPerMsg
          (requestQueue (mem b (im_peer imsg))
           ++ filter (λ iv, Type_ iv = InvVect_Block
                            ∧ HaveInventory (blockChain b) iv = false) (InvList imsg))
    ∧ trace b'
      = trace b ++ evs
        ++ match take MaxInvPerMsg
                 (requestQueue (mem b (im_peer imsg))
                  ++ filter (λ iv, Type_ iv = InvVect_Block
                                   ∧ HaveInventory (blockChain b) iv = false)
                       (InvList imsg)) with
           | [] => []
           | iv :: m => [QueueMessage (im_peer imsg) (iv :: m)]
           end
    ∧ (∀ r m, QueueMessage r m ∉ evs)
    ∧ (∀ iv, iv ∈ InvList imsg →
       Type_ iv = InvVect_Block →
       HaveInventory (blockChain b) iv = true →
       IsKnownOrphan (blockChain b) (Hash iv) = true →
       ∀ locator, LatestBlockLocator (blockChain b) = inr locator →
         PushGetBlocksMsg (im_peer imsg) locator
           (GetOrphanRoot (blockChain b) (Hash iv)) ∈ evs)
    ∧ (∀ err, LatestBlockLocator (blockChain b) = inl err →
       ∀ r l s, PushGetBlocksMsg r l s ∈ evs →
         s = zeroHash
         ∧ ∃ iv, iv ∈ InvList imsg ∧ IsKnownOrphan (blockChain b) (Hash iv) = false
                 ∧ l = BlockLocatorFromHash (blockChain b) (Hash iv))
    ∧ (∀ iv, iv ∈ InvList imsg →
       Type_ iv = InvVect_Block →
       HaveInventory (blockChain b) iv = true →
       IsKnownOrphan (blockChain b) (Hash iv) = true →
       ∀ err, LatestBlockLocator (blockChain b) = inl err →
         Log LError "[PEER] Failed to get block locator for the latest block" ∈ evs).
Proof.
  unfold handleInvMsg. cbv zeta.
  destruct (invScan_run (im_peer imsg)
              (findLastBlock (InvList imsg) (length (InvList imsg)))
              (InvList imsg) b 0)
    as (evs & Ht & Hc & Hq & Hm & Ho & He & Hl).
  set (b1 := invScan _ _ b 0%nat (InvList imsg)) in *.
  destruct (drain_loop_run (im_peer imsg) (requestQueue (mem b1 (im_peer imsg))) b1 [] 0
              (S (length (requestQueue (mem b1 (im_peer imsg)))))
              eq_refl eq_refl MaxInvPerMsg_pos ltac:(lia))
    as (b2 & Hrun & Hq2 & Ht2 & _).
  rewrite Hrun. cbn [mbind option_bind app].
  rewrite Nat.sub_0_r in *. rewrite Hq in *.
  eexists _, evs. split; [done |].
  destruct (take MaxInvPerMsg _) as [|iv m]; simpl.
  - rewrite app_nil_r, Hq2, Ht2, Ht. by split_and!.
  - rewrite Hq2, Ht2, Ht, <- (assoc_L (++)). by split_and!.
Qed.

(** C5.  Whatever the inventory message and the peer's request queue,
    [handleInvMsg] returns; with [queued] the queue after the scan (the
    queue before, followed by the block entries of the message the chain
    does not have), the get-data message holds the first [MaxInvPerMsg]
    entries of [queued], the rest stays on the queue in order, and the
    message is queued to the peer, once and last, exactly when it is not
    empty. *)
Theorem handleInvMsg_drain b imsg :
  ∃ b' evs queued,
    handleInvMsg MaxInvPerMsg b imsg = Some b'
    ∧ queued = requestQueue (mem b (im_peer imsg))
               ++ filter (λ iv, Type_ iv = InvVect_Block
                                ∧ HaveInventory (blockChain b) iv = false) (InvList imsg)
    ∧ (length (take MaxInvPerMsg queued) ≤ MaxInvPerMsg)%nat
    ∧ requestQueue (mem b' (im_peer imsg)) = drop MaxInvPerMsg queued
    ∧ (∀ r m, QueueMessage r m ∉ evs)
    ∧ (take MaxInvPerMsg queued = [] → trace b' = trace b ++ evs)
    ∧ (take MaxInvPerMsg queued ≠ [] →
       trace b' = trace b ++ evs
                  ++ [QueueMessage (im_peer imsg) (take MaxInvPerMsg queued)]).
Proof.
  destruct (handleInvMsg_run b imsg) as (b' & evs & Hrun & Hq & Ht & Hm & _).
  eexists b', evs, _. split; [exact Hrun |]. split; [reflexivity |].
  split; [rewrite length_take; lia |]. split; [exact Hq |]. split; [exact Hm |].
  destruct (take MaxInvPerMsg _) as [|iv m].
  - split; [intros _; by rewrite Ht, app_nil_r | done].
  - split; [done | by intros _].
Qed.

(** C4, amended.  For a block entry of the message that the chain has and
    reports as a known orphan, [handleInvMsg] does not enqueue the entry:
    the entries [enq] it appends to the request queue do not contain it, so
    it is in the get-data message [m] or left on the queue only if it was
    queued before.  When the locator lookup succeeds, a get-blocks request
    from the latest locator to the orphan's root is pushed to the peer.
    When the lookup fails, the failure is logged as an error, and every
    get-blocks request pushed comes from an entry that is not an orphan
    (built from that entry's hash, zero stop hash): none is pushed for the
    orphan. *)
Theorem handleInvMsg_known_orphan b imsg iv :
  iv ∈ InvList imsg →
  Type_ iv = InvVect_Block →
  HaveInventory (blockChain b) iv = true →
  IsKnownOrphan (blockChain b) (Hash iv) = true →
  ∃ b' evs m enq,
    handleInvMsg MaxInvPerMsg b imsg = Some b'
    ∧ m ++ requestQueue (mem b' (im_peer imsg))
      = requestQueue (mem b (im_peer imsg)) ++ enq
    ∧ (iv ∉ enq)
    ∧ trace b' = trace b ++ evs
                 ++ (if decide (m = []) then [] else [QueueMessage (im_peer imsg) m])
    ∧ (∀ r m', QueueMessage r m' ∉ evs)
    ∧ (∀ locator, LatestBlockLocator (blockChain b) = inr locator →
         PushGetBlocksMsg (im_peer imsg) locator
           (GetOrphanRoot (blockChain b) (Hash iv)) ∈ evs)
    ∧ (∀ err, LatestBlockLocator (blockChain b) = inl err →
       Log LError "[PEER] Failed to get block locator for the latest block" ∈ evs)
    ∧ (∀ err, LatestBlockLocator (blockChain b) = inl err →
       ∀ r l s, PushGetBlocksMsg r l s ∈ evs →
         s = zeroHash
         ∧ ∃ iv', iv' ∈ InvList imsg
                  ∧ IsKnownOrphan (blockChain b) (Hash iv') = false
                  ∧ l = BlockLocatorFromHash (blockChain b) (Hash iv')).
Proof.
  intros Hin Htype Hhave Horphan.
  destruct (handleInvMsg_run b imsg) as (b' & evs & Hrun & Hq & Ht & Hm & Ho & He & Hl).
  eexists b', evs, _, _. split; [exact Hrun |].
  split; [rewrite Hq; apply take_drop |].
  split.
  { intros [[_ Hnot] _]%list_elem_of_filter. congruence. }
  split.
  { rewrite Ht. by destruct (take MaxInvPerMsg _). }
  split; [exact Hm |]. split; [intros locator Hloc; by apply Ho |].
  split; [intros err Hloc; by eapply Hl | exact He].
Qed.
End InvFacts.

(** An inventory message with three block entries, none of them known: one
    get-data message with all three, and the request queue is empty. *)
Example handleInvMsg_three_unknown :
  (λ b', (requestQueue (mem b' 0%nat), trace b'))
    <$> handleInvMsg 5 (invDemo (inr [zeroHash]) [])
          (mkInvMsg [blockInv 21%N; blockInv 22%N; blockInv 23%N] 0%nat)
  = Some ([],
          [AddKnownInventory 0%nat (blockInv 21%N);
           AddKnownInventory 0%nat (blockInv 22%N);
           AddKnownInventory 0%nat (blockInv 23%N);
           QueueMessage 0%nat [blockInv 21%N; blockInv 22%N; blockInv 23%N]]).
Proof. reflexivity. Qed.

(** With at most two entries per message: a queue that holds block 20 and
    a message announcing a transaction, the unknown blocks 21, 22 and 23
    and the known orphan 7.  Blocks 20 and 21 are fetched, 22 and 23 stay
    queued, and the orphan leads to a get-blocks request up to its root. *)
Example handleInvMsg_capped :
  (λ b', (requestQueue (mem b' 0%nat), trace b'))
    <$> handleInvMsg 2 (invDemo (inr [zeroHash]) [blockInv 20%N])
          (mkInvMsg [mkInvVect InvVect_Tx 5%N; blockInv 21%N; blockInv 22%N; blockInv 7%N;
                     blockInv 23%N] 0%nat)
  = Some ([blockInv 22%N; blockInv 23%N],
          [AddKnownInventory 0%nat (blockInv 21%N);
           AddKnownInventory 0%nat (blockInv 22%N);
           AddKnownInventory 0%nat (blockInv 7%N);
           PushGetBlocksMsg 0%nat [zeroHash] 3%N;
           AddKnownInventory 0%nat (blockInv 23%N);
           QueueMessage 0%nat [blockInv 20%N; blockInv 21%N]]).
Proof. reflexivity. Qed.

(** The last block entry of a message, when the chain has it and it is no
    orphan, leads to a get-blocks request from that block on. *)
Example handleInvMsg_last_known :
  trace <$> handleInvMsg 2
              (set_blockChain (mkSim (inr (zeroHash, 0)) (inr [zeroHash]) [7%N; 8%N] [] [])
                 (invDemo (inr [zeroHash]) []))
              (mkInvMsg [blockInv 7%N; blockInv 8%N] 0%nat)
  = Some [AddKnownInventory 0%nat (blockInv 7%N);
          AddKnownInventory 0%nat (blockInv 8%N);
          PushGetBlocksMsg 0%nat [8%N] zeroHash].
Proof. reflexivity. Qed.

(** C4 as stated fails where the locator lookup fails: the chain has block
    7 and reports it as a known orphan, yet [handleInvMsg] pushes no
    get-blocks request; it logs the failure and goes on. *)
Lemma handleInvMsg_locator_failure :
  ∃ b',
    handleInvMsg 2 (invDemo (inl "no locator"%string) []) (mkInvMsg [blockInv 7%N] 0%nat)
    = Some b'
    ∧ HaveInventory (blockChain (invDemo (inl "no locator"%string) [])) (blockInv 7%N) = true
    ∧ IsKnownOrphan (blockChain (invDemo (inl "no locator"%string) [])) 7%N = true
    ∧ trace b' = [AddKnownInventory 0%nat (blockInv 7%N);
                  Log LError "[PEER] Failed to get block locator for the latest block"].
Proof. eexists. split; [vm_compute; reflexivity |]. repeat split; reflexivity. Qed.

(** The orphan 7 announced to a chain that has a locator. *)
Lemma handleInvMsg_known_orphan_witness :
  (0 < 2)%nat
  ∧ blockInv 7%N ∈ InvList (mkInvMsg [blockInv 7%N] 0%nat)
  ∧ Type_ (blockInv 7%N) = InvVect_Block
  ∧ HaveInventory (blockChain (invDemo (inr [zeroHash]) [])) (blockInv 7%N) = true
  ∧ IsKnownOrphan (blockChain (invDemo (inr [zeroHash]) [])) (Hash (blockInv 7%N)) = true
  ∧ ∃ b' (evs : list event),
      handleInvMsg 2 (invDemo (inr [zeroHash]) []) (mkInvMsg [blockInv 7%N] 0%nat) = Some b'
      ∧ PushGetBlocksMsg 0%nat [zeroHash] 3%N ∈ evs.
Proof.
  split; [lia |]. split; [apply list_elem_of_here |]. split; [reflexivity |].
  split; [reflexivity |]. split; [reflexivity |].
  destruct (handleInvMsg_known_orphan 2 ltac:(lia) (invDemo (inr [zeroHash]) [])
              (mkInvMsg [blockInv 7%N] 0%nat) (blockInv 7%N)
              (list_elem_of_here _ _) eq_refl eq_refl eq_refl)
    as (b' & evs & m & enq & Hrun & _ & _ & _ & _ & Hpush & _).
  exists b', evs. split; [exact Hrun |]. exact (Hpush [zeroHash] eq_refl).
Defined.

(** Three queued entries and room for two. *)
Lemma handleInvMsg_drain_witness :
  (0 < 2)%nat
  ∧ ∃ b' queued,
      handleInvMsg 2 (invDemo (inr [zeroHash]) [blockInv 20%N])
        (mkInvMsg [blockInv 21%N; blockInv 22%N] 0%nat) = Some b'
      ∧ queued = [blockInv 20%N; blockInv 21%N; blockInv 22%N]
      ∧ requestQueue (mem b' 0%nat) = drop 2 queued.
Proof.
  split; [lia |].
  destruct (handleInvMsg_drain 2 ltac:(lia) (invDemo (inr [zeroHash]) [blockInv 20%N])
              (mkInvMsg [blockInv 21%N; blockInv 22%N] 0%nat))
    as (b' & evs & queued & Hrun & Hqueued & _ & Hrest & _).
  exists b', queued. split; [exact Hrun |]. split; [exact Hqueued | exact Hrest].
Defined.

(** ** More on sync-peer selection *)

Section SyncMore.
Context {chain : Type} `{ChainEngine chain}.
Implicit Types (b : blockManager chain) (peers run rest : list peerRef) (p : peerRef).

(** All outcomes of [startSync] at once: it returns, it leaves the peers'
    memory and the flags alone, the list it returns is a sublist of the one
    it got, and a sync peer it records is in the list it returns. *)
Lemma startSync_cases b peers :
  ∃ b' peers',
    startSync b peers = Some (b', peers')
    ∧ mem b' = mem b ∧ shutdown b' = shutdown b ∧ quit b' = quit b
    ∧ peers' `sublist_of` peers
    ∧ (is_Some (syncPeer b) → b' = b ∧ peers' = peers)
    ∧ (syncPeer b = None → ∀ p, syncPeer b' = Some p → p ∈ peers').
Proof.
  destruct (syncPeer b) as [sp|] eqn:Hsync.
  { exists b, peers. unfold startSync. rewrite Hsync. split_and!; by try done. }
  destruct (NewestSha (blockChain b)) as [err | [hash height]] eqn:Hnewest.
  { eexists _, peers. unfold startSync. rewrite Hsync, Hnewest.
    split_and!; try done. simpl. intros _ p. by rewrite Hsync. }
  rewrite (startSync_run b peers hash height Hsync Hnewest). cbv zeta.
  assert (Hsub : match list_find (λ p, lastBlock (mem b p) <= int32 height) peers with
                 | Some (i, _) => delete i peers
                 | None => peers
                 end `sublist_of` peers).
  { destruct (list_find _ peers) as [[i y]|]; [apply sublist_delete | done]. }
  assert (Hin : ∀ p,
            match list_find (λ p, lastBlock (mem b p) <= int32 height) peers with
            | Some (i, _) => last (take i peers)
            | None => last peers
            end = Some p →
            p ∈ match list_find (λ p, lastBlock (mem b p) <= int32 height) peers with
                | Some (i, _) => delete i peers
                | None => peers
                end).
  { intros p. destruct (list_find _ peers) as [[i y]|]; intros Hlast.
    - rewrite delete_take_drop. apply elem_of_app. left.
      by apply last_Some_elem_of.
    - by apply last_Some_elem_of. }
  destruct (match list_find _ peers with
            | Some (i, _) => last (take i peers)
            | None => last peers
            end) as [bestPeer|].
  - specialize (Hin bestPeer eq_refl).
    destruct (LatestBlockLocator (blockChain b)); eexists _, _;
      (split_and!; try done; try exact Hsub);
      simpl; intros _ p; [by rewrite Hsync | by intros [= <-]].
  - eexists _, _. split_and!; try done; try exact Hsub.
    intros _ p. by rewrite Hsync.
Qed.

(** X1.  A selection pass removes at most one candidate: the list comes back
    as it was, or without the first candidate that is not ahead of the local
    height, every candidate in front of it being ahead. *)
Theorem startSync_prunes_at_most_one b peers :
  ∃ b' peers',
    startSync b peers = Some (b', peers')
    ∧ (peers' = peers
       ∨ ∃ i p hash height,
           NewestSha (blockChain b) = inr (hash, height)
           ∧ peers !! i = Some p
           ∧ lastBlock (mem b p) <= int32 height
           ∧ (∀ j q, peers !! j = Some q → (j < i)%nat →
                     int32 height < lastBlock (mem b q))
           ∧ peers' = delete i peers).
Proof.
  destruct (syncPeer b) as [sp|] eqn:Hsync.
  { exists b, peers. unfold startSync. rewrite Hsync. by split; [|left]. }
  destruct (NewestSha (blockChain b)) as [err | [hash height]] eqn:Hnewest.
  { eexists _, peers. unfold startSync. rewrite Hsync, Hnewest. by split; [|left]. }
  rewrite (startSync_run b peers hash height Hsync Hnewest). cbv zeta.
  destruct (list_find _ peers) as [[i y]|] eqn:Hfind.
  - apply list_find_Some in Hfind as (Hy & Hbehind & Hbefore).
    destruct (last (take i peers)); [destruct (LatestBlockLocator (blockChain b)) |];
      eexists _, _; (split; [done |]); right; exists i, y, hash, height;
      (split_and!; try done); intros j q Hq Hj; by apply Z.nle_gt, (Hbefore j q Hq Hj).
  - destruct (last peers); [destruct (LatestBlockLocator (blockChain b)) |];
      eexists _, _; (split; [done | by left]).
Qed.

(** X2.  The sync peer a selection pass records is a candidate of the list
    the pass leaves behind. *)
Theorem startSync_syncPeer_is_candidate b peers b' peers' p :
  syncPeer b = None →
  startSync b peers = Some (b', peers') →
  syncPeer b' = Some p →
  p ∈ peers' ∧ p ∈ peers.
Proof.
  intros Hsync Hrun Hp.
  destruct (startSync_cases b peers) as (b1 & peers1 & Hrun1 & _ & _ & _ & Hsub & _ & Hin).
  rewrite Hrun in Hrun1. injection Hrun1 as <- <-.
  assert (p ∈ peers') by (by apply Hin).
  split; [done |]. by eapply elem_of_sublist.
Qed.

(** X3.  Which candidate is selected.  With both lookups succeeding, a list
    that starts with the candidates [run], all ahead of the local height,
    and goes on with [rest], empty or headed by a candidate that is not
    ahead, comes back without the head of [rest]; the sync peer is the last
    candidate of [run], none if [run] is empty, and the request goes to it
    and to nobody else. *)
Theorem startSync_choice b run rest hash height locator :
  syncPeer b = None →
  NewestSha (blockChain b) = inr (hash, height) →
  LatestBlockLocator (blockChain b) = inr locator →
  (∀ p, p ∈ run → int32 height < lastBlock (mem b p)) →
  (∀ q, head rest = Some q → lastBlock (mem b q) <= int32 height) →
  ∃ b',
    startSync b (run ++ rest) = Some (b', run ++ tail rest)
    ∧ syncPeer b' = last run
    ∧ match last run with
      | Some p =>
          ∃ text, trace b' = trace b ++ [Log LInfo text; PushGetBlocksMsg p locator zeroHash]
      | None => trace b' = trace b
      end.
Proof.
  intros Hsync Hnewest Hloc Hrun Hrest.
  rewrite (startSync_run b (run ++ rest) hash height Hsync Hnewest). cbv zeta.
  assert (Hnone : list_find (λ p, lastBlock (mem b p) <= int32 height) run = None).
  { apply list_find_None, Forall_forall. intros p Hp. specialize (Hrun p Hp). lia. }
  rewrite (list_find_app_r _ _ _ Hnone), Hloc.
  destruct rest as [|q rest]; simpl.
  - rewrite !app_nil_r. destruct (last run) as [p|]; eexists; (split; [done |]); (split; [done |]);
      [eexists; simpl; by rewrite <- (assoc_L (++)) | done].
  - rewrite decide_True by (by apply Hrest). simpl.
    assert (delete (length run) (run ++ q :: rest) = run ++ rest) as ->.
    { rewrite delete_take_drop, take_app_length.
      by rewrite cons_middle, (assoc_L (++)), drop_app_length'
        by (rewrite length_app; simpl; lia). }
    rewrite take_app_length.
    destruct (last run) as [p|]; eexists; (split; [done |]); (split; [done |]);
      [eexists; simpl; by rewrite <- (assoc_L (++)) | done].
Qed.
(** X4.  On a candidate list without duplicates, a done signal removes the
    peer for good: afterwards the peer is not in the list and is not the
    sync peer, and the list still has no duplicates. *)
Theorem handleDonePeerMsg_removes_peer b peers p b' peers' :
  NoDup peers →
  handleDonePeerMsg b peers p = Some (b', peers') →
  (p ∉ peers') ∧ syncPeer b' ≠ Some p ∧ NoDup peers'.
Proof.
  intros Hdup. unfold handleDonePeerMsg. rewrite donePeer_loop_front. simpl.
  pose proof (remove_first_split p peers) as Hsplit.
  set (peers1 := match list_find (λ x, x = p) peers with
                 | Some (i, _) => delete i peers
                 | None => peers
                 end) in *.
  assert (Hnot : (p ∉ peers1) ∧ NoDup peers1).
  { subst peers1. destruct (list_find _ peers) as [[i y]|]; [|done].
    destruct Hsplit as (l1 & l2 & -> & Hl1 & ->).
    apply NoDup_app in Hdup as (Hd1 & Hdisj & Hd2).
    apply NoDup_cons in Hd2 as [Hl2 Hd2].
    split.
    - intros [?|?]%elem_of_app; [by apply Hl1 | by apply Hl2].
    - apply NoDup_app. split_and!; try done.
      intros x Hx Hx2. apply (Hdisj x Hx). by apply list_elem_of_further. }
  destruct Hnot as [Hnot Hdup1].
  destruct (syncPeer b) as [sp|] eqn:Hsync.
  - destruct (decide (sp = p)) as [->|Hne].
    + destruct (startSync_cases (set_syncPeer None b) peers1)
        as (b2 & peers2 & Hrun & _ & _ & _ & Hsub & _ & Hin).
      rewrite Hrun. intros [= <- <-].
      assert (Hnot2 : p ∉ peers2).
      { intros Hp. apply Hnot. by eapply elem_of_sublist. }
      split_and!; [done | | by eapply sublist_NoDup].
      intros Hp. apply Hnot2. by apply Hin.
    + intros [= <- <-]. split_and!; try done. rewrite Hsync. congruence.
  - intros [= <- <-]. split_and!; try done. by rewrite Hsync.
Qed.

(** The candidate list holds full nodes only and the sync peer, if any, is
    one of its candidates. *)
Lemma handleNewCandidateMsg_keeps b peers p :
  (∀ q, q ∈ peers → N.land (services (mem b q)) SFNodeNetwork = SFNodeNetwork) →
  (∀ sp, syncPeer b = Some sp → sp ∈ peers) →
  ∃ b' peers',
    handleNewCandidateMsg b peers p = Some (b', peers')
    ∧ mem b' = mem b ∧ shutdown b' = shutdown b ∧ quit b' = quit b
    ∧ (∀ q, q ∈ peers' → N.land (services (mem b q)) SFNodeNetwork = SFNodeNetwork)
    ∧ (∀ sp, syncPeer b' = Some sp → sp ∈ peers').
Proof.
  intros Hfull Hsp. unfold handleNewCandidateMsg.
  destruct (shutdown b) eqn:Hshut; [by exists b, peers |].
  destruct (decide _) as [Hno|Hyes]; [by exists b, peers |].
  apply dec_stable in Hyes.
  destruct (startSync_cases b (GoList.PushBack peers p))
    as (b' & peers' & Hrun & Hmem & Hs & Hq & Hsub & Hsome & Hnone).
  exists b', peers'. rewrite Hs. split_and!; try done.
  - intros q Hq'. eapply elem_of_sublist in Hq'; [|exact Hsub].
    apply elem_of_app in Hq' as [?|Hq']; [by apply Hfull |].
    apply list_elem_of_singleton in Hq'. by subst q.
  - destruct (syncPeer b) as [sp|] eqn:Hsync.
    + destruct (Hsome ltac:(done)) as [-> ->]. intros sp' Hsp'.
      apply elem_of_app. left. apply Hsp. congruence.
    + by apply Hnone.
Qed.

Lemma handleDonePeerMsg_keeps b peers p :
  (∀ q, q ∈ peers → N.land (services (mem b q)) SFNodeNetwork = SFNodeNetwork) →
  (∀ sp, syncPeer b = Some sp → sp ∈ peers) →
  ∃ b' peers',
    handleDonePeerMsg b peers p = Some (b', peers')
    ∧ mem b' = mem b ∧ shutdown b' = shutdown b ∧ quit b' = quit b
    ∧ (∀ q, q ∈ peers' → N.land (services (mem b q)) SFNodeNetwork = SFNodeNetwork)
    ∧ (∀ sp, syncPeer b' = Some sp → sp ∈ peers').
Proof.
  intros Hfull Hsp. unfold handleDonePeerMsg. rewrite donePeer_loop_front. simpl.
  pose proof (remove_first_split p peers) as Hsplit.
  set (peers1 := match list_find (λ x, x = p) peers with
                 | Some (i, _) => delete i peers
                 | None => peers
                 end) in *.
  assert (Hsub1 : ∀ q, q ∈ peers1 → q ∈ peers).
  { subst peers1. destruct (list_find _ peers) as [[i y]|]; [|done].
    intros q. apply list_elem_of_delete_inv. }
  assert (Hkeep : ∀ q, q ∈ peers → q ≠ p → q ∈ peers1).
  { subst peers1. destruct (list_find _ peers) as [[i y]|]; [|done].
    destruct Hsplit as (l1 & l2 & -> & _ & ->). intros q Hq Hne.
    apply elem_of_app in Hq as [?|Hq]; apply elem_of_app; [by left |].
    apply elem_of_cons in Hq as [?|?]; [done | by right]. }
  destruct (syncPeer b) as [sp|] eqn:Hsync.
  - destruct (decide (sp = p)) as [->|Hne].
    + destruct (startSync_cases (set_syncPeer None b) peers1)
        as (b2 & peers2 & Hrun & Hmem & Hs & Hq & Hsub & _ & Hin).
      exists b2, peers2. split_and!; try done.
      * intros q Hq2. apply Hfull, Hsub1. by eapply elem_of_sublist.
      * by apply Hin.
    + exists b, peers1. split_and!; try done.
      * intros q Hq. by apply Hfull, Hsub1.
      * intros sp' Hsp'. rewrite Hsync in Hsp'. injection Hsp' as <-.
        by apply Hkeep; [apply Hsp |].
  - exists b, peers1. split_and!; try done.
    + intros q Hq. by apply Hfull, Hsub1.
    + intros sp'. by rewrite Hsync.
Qed.

Lemma syncHandler_loop_keeps sched : ∀ b peers running,
  (∀ q, q ∈ peers → N.land (services (mem b q)) SFNodeNetwork = SFNodeNetwork) →
  (∀ sp, syncPeer b = Some sp → sp ∈ peers) →
  ∃ b' peers' running',
    syncHandler_loop sched b peers running = Some (b', peers', running')
    ∧ mem b' = mem b
    ∧ (∀ q, q ∈ peers' → N.land (services (mem b q)) SFNodeNetwork = SFNodeNetwork)
    ∧ (∀ sp, syncPeer b' = Some sp → sp ∈ peers').
Proof.
  induction sched as [|c sched IH]; intros b peers running Hfull Hsp; simpl.
  { by exists b, peers, running. }
  destruct running; [|by exists b, peers, false].
  assert (Hturn : ∃ b1 peers1 running1,
            syncHandler_turn c b peers = Some (b1, peers1, running1)
            ∧ mem b1 = mem b
            ∧ (∀ q, q ∈ peers1 →
                 N.land (services (mem b q)) SFNodeNetwork = SFNodeNetwork)
            ∧ (∀ sp, syncPeer b1 = Some sp → sp ∈ peers1)).
  { unfold syncHandler_turn. destruct (shutdown b); [by eexists _, _, _ |].
    destruct c as [p|p|].
    - destruct (handleNewCandidateMsg_keeps b peers p Hfull Hsp)
        as (b1 & peers1 & -> & Hmem & _ & _ & Hfull1 & Hsp1).
      by exists b1, peers1, true.
    - destruct (handleDonePeerMsg_keeps b peers p Hfull Hsp)
        as (b1 & peers1 & -> & Hmem & _ & _ & Hfull1 & Hsp1).
      by exists b1, peers1, true.
    - destruct (quit b); by eexists _, _, _. }
  destruct Hturn as (b1 & peers1 & running1 & -> & Hmem & Hfull1 & Hsp1). simpl.
  destruct (IH b1 peers1 running1) as (b' & peers' & running' & Hrun & Hmem' & Hfull' & Hsp');
    [by rewrite Hmem | done |].
  exists b', peers', running'. rewrite Hmem in Hmem', Hfull'. by split_and!.
Qed.

(** X5.  Whatever the sync handler receives and in whatever order, it
    returns, its candidate list holds only full-node peers, and the sync
    peer, if one is recorded, is one of the candidates in the list. *)
Theorem syncHandler_invariant sched b :
  syncPeer b = None →
  ∃ b' peers' running,
    syncHandler sched b = Some (b', peers', running)
    ∧ (∀ q, q ∈ peers' → N.land (services (mem b q)) SFNodeNetwork = SFNodeNetwork)
    ∧ (∀ sp, syncPeer b' = Some sp → sp ∈ peers').
Proof.
  intros Hsync. unfold syncHandler.
  destruct (syncHandler_loop_keeps sched
              (emit (Log LTrace "[BMGR] Starting sync handler") b) [] true)
    as (b' & peers' & running & Hrun & _ & Hfull & Hsp).
  - by intros q ?%elem_of_nil.
  - simpl. intros sp. by rewrite Hsync.
  - by exists b', peers', running.
Qed.
End SyncMore.

(** One candidate ahead of an empty chain is recorded and stays listed. *)
Lemma startSync_syncPeer_is_candidate_witness :
  syncPeer (syncDemo [100] 0 (inr [zeroHash])) = None
  ∧ 0%nat ∈ [0%nat] ∧ 0%nat ∈ [0%nat].
Proof.
  split; [reflexivity |].
  apply (startSync_syncPeer_is_candidate (syncDemo [100] 0 (inr [zeroHash])) [0%nat]
           (set_syncPeer (Some 0%nat)
              (emit (PushGetBlocksMsg 0%nat [zeroHash] zeroHash)
                 (emit (Log LInfo "[BMGR] Syncing to block height from peer")
                    (syncDemo [100] 0 (inr [zeroHash])))))
           [0%nat] 0%nat); reflexivity.
Defined.

(** Candidates at heights 100, 200, 5 and 300 with the local height at 10:
    the second one is selected and the third one removed. *)
Lemma startSync_choice_witness :
  syncPeer (syncDemo [100; 200; 5; 300] 10 (inr [zeroHash])) = None
  ∧ ∃ b',
      startSync (syncDemo [100; 200; 5; 300] 10 (inr [zeroHash]))
        ([0%nat; 1%nat] ++ [2%nat; 3%nat])
      = Some (b', [0%nat; 1%nat] ++ [3%nat])
      ∧ syncPeer b' = Some 1%nat.
Proof.
  split; [reflexivity |].
  destruct (startSync_choice (syncDemo [100; 200; 5; 300] 10 (inr [zeroHash]))
              [0%nat; 1%nat] [2%nat; 3%nat] zeroHash 10 [zeroHash])
    as (b' & Hrun & Hsync & _); [reflexivity | reflexivity | reflexivity | | |].
  - intros p Hp. apply list_elem_of_In in Hp. simpl in Hp.
    destruct Hp as [<-|[<-|[]]]; reflexivity.
  - intros q [= <-]. by vm_compute.
  - exists b'. split; [exact Hrun | exact Hsync].
Defined.

(** Peer 0 leaves a list that holds it once. *)
Lemma handleDonePeerMsg_removes_peer_witness :
  NoDup [0%nat; 1%nat]
  ∧ handleDonePeerMsg (syncDemo [100; 200] 0 (inr [zeroHash])) [0%nat; 1%nat] 0%nat
    = Some (syncDemo [100; 200] 0 (inr [zeroHash]), [1%nat])
  ∧ (0%nat ∉ [1%nat]).
Proof.
  assert (Hdup : NoDup [0%nat; 1%nat]).
  { apply NoDup_cons_2; [|apply NoDup_singleton].
    intros Hin. apply list_elem_of_singleton in Hin. discriminate. }
  split; [exact Hdup |]. split; [reflexivity |].
  apply (handleDonePeerMsg_removes_peer (syncDemo [100; 200] 0 (inr [zeroHash]))
           [0%nat; 1%nat] 0%nat (syncDemo [100; 200] 0 (inr [zeroHash])) [1%nat] Hdup).
  reflexivity.
Defined.

(** Two peers join, the first one leaves. *)
Lemma syncHandler_invariant_witness :
  syncPeer (syncDemo [100; 200] 0 (inr [zeroHash])) = None
  ∧ ∃ b' peers' running,
      syncHandler [RecvCandidate 0%nat; RecvCandidate 1%nat; RecvDone 0%nat]
        (syncDemo [100; 200] 0 (inr [zeroHash])) = Some (b', peers', running)
      ∧ ∀ sp, syncPeer b' = Some sp → sp ∈ peers'.
Proof.
  split; [reflexivity |].
  destruct (syncHandler_invariant
              [RecvCandidate 0%nat; RecvCandidate 1%nat; RecvDone 0%nat]
              (syncDemo [100; 200] 0 (inr [zeroHash])) eq_refl)
    as (b' & peers' & running & Hrun & _ & Hsp).
  exists b', peers', running. split; [exact Hrun | exact Hsp].
Defined.

(** The sync handler at work: peer 0 joins and is selected, peer 1 joins,
    peer 0 leaves and peer 1 is selected in its place. *)
Example syncHandler_reselects :
  (λ r, (syncPeer r.1.1, r.1.2))
    <$> syncHandler [RecvCandidate 0%nat; RecvCandidate 1%nat; RecvDone 0%nat]
          (syncDemo [100; 200] 0 (inr [zeroHash]))
  = Some (Some 1%nat, [1%nat]).
Proof. vm_compute. reflexivity. Qed.

(** ** More on block ingest and notifications *)

Section IngestMore.
Context {chain : Type} `{ChainEngine chain}.
Implicit Types (b : blockManager chain) (p : peerRef).

(** The entry of a block accepted as an orphan. *)
Lemma handleBlockMsg_orphan_entry b bmsg now c :
  ProcessBlock (blockChain b) (bm_block bmsg) = (c, None) →
  IsKnownOrphan c (Sha (bm_block bmsg)) = true →
  blockPeer (handleBlockMsg b bmsg now) !! Sha (bm_block bmsg) = Some (bm_peer bmsg).
Proof.
  intros Hprocess Horphan. unfold handleBlockMsg. simpl.
  rewrite Hprocess. simpl. rewrite Horphan. simpl.
  destruct (NewestSha c) as [err|[hash height]]; simpl;
    unfold logBlockHeight; try case_bool_decide; simpl; apply lookup_insert_eq.
Qed.

(** X6.  When [ProcessBlock] accepts the block, the block-origin map keeps
    the supplying peer under the block's hash exactly when the chain then
    reports the block as a known orphan; no other key of the map changes. *)
Theorem handleBlockMsg_origin b bmsg now c :
  ProcessBlock (blockChain b) (bm_block bmsg) = (c, None) →
  blockPeer (handleBlockMsg b bmsg now) !! Sha (bm_block bmsg)
  = (if IsKnownOrphan c (Sha (bm_block bmsg)) then Some (bm_peer bmsg) else None)
  ∧ ∀ h, h ≠ Sha (bm_block bmsg) →
         blockPeer (handleBlockMsg b bmsg now) !! h = blockPeer b !! h.
Proof.
  intros Hprocess. unfold handleBlockMsg. simpl. rewrite Hprocess. simpl.
  destruct (IsKnownOrphan c (Sha (bm_block bmsg))); simpl;
    destruct (NewestSha c) as [err|[hash height]]; simpl;
    unfold logBlockHeight; try case_bool_decide; simpl;
    (split; [| intros h Hh]);
    by rewrite ?lookup_delete_eq, ?lookup_insert_eq,
         ?lookup_delete_ne, ?lookup_insert_ne by done.
Qed.

(** X7.  Whatever the outcome, [handleBlockMsg] touches nothing but the
    origin-map entry of the block, the chain, the progress counters and
    the log: the sync peer, the queues, the flags and the peers' memory stay
    as they are and every event it emits is a log line. *)
Theorem handleBlockMsg_frame b bmsg now :
  (∀ h, h ≠ Sha (bm_block bmsg) →
        blockPeer (handleBlockMsg b bmsg now) !! h = blockPeer b !! h)
  ∧ syncPeer (handleBlockMsg b bmsg now) = syncPeer b
  ∧ mem (handleBlockMsg b bmsg now) = mem b
  ∧ blockQueue (handleBlockMsg b bmsg now) = blockQueue b
  ∧ invQueue (handleBlockMsg b bmsg now) = invQueue b
  ∧ started (handleBlockMsg b bmsg now) = started b
  ∧ shutdown (handleBlockMsg b bmsg now) = shutdown b
  ∧ quit (handleBlockMsg b bmsg now) = quit b
  ∧ wg (handleBlockMsg b bmsg now) = wg b
  ∧ ∃ evs, trace (handleBlockMsg b bmsg now) = trace b ++ evs
           ∧ ∀ ev, ev ∈ evs → ∃ lvl text, ev = Log lvl text.
Proof.
  split_and!; try apply handleBlockMsg_trace;
    unfold handleBlockMsg; simpl;
    destruct (ProcessBlock (blockChain b) (bm_block bmsg)) as [c [err|]]; simpl;
    try (destruct (IsKnownOrphan c (Sha (bm_block bmsg))); simpl;
         destruct (NewestSha c) as [err|[hash height]]; simpl;
         unfold logBlockHeight; try case_bool_decide; simpl);
    try done;
    intros h Hh;
    by rewrite ?lookup_delete_ne, ?lookup_insert_ne by done.
Qed.

Lemma logBlockHeight_logs b numTx height now :
  1000000000 * 10 <= now - lastBlockLogTime b →
  logBlockHeight b numTx height now
  = set_counters 0 0 now
      (emit (Log LInfo "[BMGR] Processed blocks in the last interval") b).
Proof. intros Hlate. unfold logBlockHeight. by rewrite bool_decide_false by lia. Qed.

Lemma logBlockHeight_quiet b numTx height now :
  now - lastBlockLogTime b < 1000000000 * 10 →
  logBlockHeight b numTx height now
  = set_counters (int64 (receivedLogBlocks b + 1)) (int64 (receivedLogTx b + numTx))
      (lastBlockLogTime b) b.
Proof. intros Hsoon. unfold logBlockHeight. by rewrite bool_decide_true by lia. Qed.

(** X8.  The progress line is throttled: once a call has logged at time
    [now], a call less than ten seconds later logs nothing, and the counters
    then stand at the one block and the transactions received since the
    line. *)
Theorem logBlockHeight_throttled b numTx height now numTx' height' now' :
  1000000000 * 10 <= now - lastBlockLogTime b →
  now' - now < 1000000000 * 10 →
  (∃ text,
     trace (logBlockHeight (logBlockHeight b numTx height now) numTx' height' now')
     = trace b ++ [Log LInfo text])
  ∧ receivedLogBlocks
      (logBlockHeight (logBlockHeight b numTx height now) numTx' height' now') = 1
  ∧ receivedLogTx
      (logBlockHeight (logBlockHeight b numTx height now) numTx' height' now')
    = int64 numTx'
  ∧ lastBlockLogTime
      (logBlockHeight (logBlockHeight b numTx height now) numTx' height' now') = now.
Proof.
  intros Hfirst Hsecond.
  rewrite (logBlockHeight_logs b numTx height now Hfirst).
  rewrite logBlockHeight_quiet by (simpl; lia). simpl.
  split_and!; [by eexists | reflexivity | done | done].
Qed.

(** X9.  After a successful orphan request the entry deleted from the
    origin map is the one keyed by the orphan's root: the entry of the
    orphan itself is gone only when the orphan is its own root. *)
Theorem handleNotifyMsg_orphan_entry b orphanHash peer locator b' :
  blockPeer b !! orphanHash = Some peer →
  LatestBlockLocator (blockChain b) = inr locator →
  handleNotifyMsg b (mkNotification NTOrphanBlock (DataHash orphanHash)) = Some b' →
  blockPeer b' !! orphanHash
  = (if decide (GetOrphanRoot (blockChain b) orphanHash = orphanHash)
     then None else Some peer)
  ∧ ∀ h, h ≠ GetOrphanRoot (blockChain b) orphanHash →
         blockPeer b' !! h = blockPeer b !! h.
Proof.
  intros Hpeer Hloc. unfold handleNotifyMsg. simpl. rewrite Hpeer, Hloc.
  intros [= <-]. simpl. split.
  - destruct (decide _) as [->|Hne].
    + apply lookup_delete_eq.
    + by rewrite lookup_delete_ne.
  - intros h Hh. by rewrite lookup_delete_ne.
Qed.


(** X11.  A notification leads to at most one event.  An inventory vector
    is relayed exactly for an accepted block, with block type and the
    block's hash; a get-blocks request is sent only for an orphan
    notification; connected and disconnected notifications change
    nothing. *)
Theorem handleNotifyMsg_events b notification b' :
  handleNotifyMsg b notification = Some b' →
  ∃ evs,
    trace b' = trace b ++ evs ∧ (length evs ≤ 1)%nat
    ∧ (∀ iv, RelayInventory iv ∈ evs
             ↔ ∃ blk, nType notification = NTBlockAccepted
                      ∧ nData notification = DataBlock blk
                      ∧ iv = mkInvVect InvVect_Block (Sha blk))
    ∧ (∀ r l s, PushGetBlocksMsg r l s ∈ evs → nType notification = NTOrphanBlock)
    ∧ (nType notification = NTBlockConnected ∨ nType notification = NTBlockDisconnected →
       b' = b).
Proof.
  unfold handleNotifyMsg. destruct notification as [[] d]; simpl.
  - destruct d as [h|blk| | |]; try discriminate.
    destruct (blockPeer b !! h); [destruct (LatestBlockLocator (blockChain b)) |];
      intros [= <-]; eexists [_];
      (split_and!;
       first [ done
             | by intros [?|?]
             | intros iv; split; [intros Hin; exfalso; by not_in_trace Hin
                                 | by intros (? & ? & ? & _)] ]).
  - destruct d as [h|blk| | |]; try discriminate.
    2:{ intros [= <-]. eexists [_].
        split_and!;
          first [ done
                | by intros [?|?]
                | intros r l s Hin; exfalso; by not_in_trace Hin
                | idtac ].
        intros iv. rewrite list_elem_of_singleton. split.
        + intros [= ->]. by exists blk.
        + by intros (blk' & _ & [= <-] & ->). }
    all: intros [= <-]; eexists [_];
      split_and!;
        first [ done
              | by intros [?|?]
              | intros iv; split; [intros Hin; exfalso; by not_in_trace Hin
                                  | by intros (? & ? & ? & _)]
              | intros r l s Hin; exfalso; by not_in_trace Hin ].
  - intros [= <-]. exists []. rewrite app_nil_r.
    split_and!;
      first [ done
            | simpl; lia
            | by intros r l s ?%elem_of_nil
            | intros iv; split; [by intros ?%elem_of_nil | by intros (? & ? & ? & _)] ].
  - intros [= <-]. exists []. rewrite app_nil_r.
    split_and!;
      first [ done
            | simpl; lia
            | by intros r l s ?%elem_of_nil
            | intros iv; split; [by intros ?%elem_of_nil | by intros (? & ? & ? & _)] ].
Qed.

(** X12.  A block accepted as an orphan and then announced by the chain as
    an orphan.  When the locator lookup succeeds, the peer that supplied the
    block gets the get-blocks request from the latest locator to the
    orphan's root, and nothing else is emitted.  When the lookup fails, the
    failure is logged as an error, nothing else is emitted and the origin
    map stays as it is. *)
Theorem orphan_block_then_notification b bmsg now c :
  ProcessBlock (blockChain b) (bm_block bmsg) = (c, None) →
  IsKnownOrphan c (Sha (bm_block bmsg)) = true →
  ∃ b',
    handleNotifyMsg (handleBlockMsg b bmsg now)
      (mkNotification NTOrphanBlock (DataHash (Sha (bm_block bmsg)))) = Some b'
    ∧ match LatestBlockLocator (blockChain (handleBlockMsg b bmsg now)) with
      | inr locator =>
          trace b'
          = trace (handleBlockMsg b bmsg now)
            ++ [PushGetBlocksMsg (bm_peer bmsg) locator
                  (GetOrphanRoot (blockChain (handleBlockMsg b bmsg now))
                     (Sha (bm_block bmsg)))]
      | inl err =>
          trace b'
          = trace (handleBlockMsg b bmsg now)
            ++ [Log LError "[BMGR] Failed to get block locator for the latest block"]
          ∧ blockPeer b' = blockPeer (handleBlockMsg b bmsg now)
      end.
Proof.
  intros Hprocess Horphan.
  unfold handleNotifyMsg. simpl.
  rewrite (handleBlockMsg_orphan_entry b bmsg now c Hprocess Horphan).
  destruct (LatestBlockLocator (blockChain (handleBlockMsg b bmsg now))); by eexists.
Qed.
End IngestMore.

(** Block 7, an orphan for the chain, supplied by peer 0. *)
Lemma handleBlockMsg_origin_witness :
  ProcessBlock (blockChain (invDemo (inr [zeroHash]) [])) (mkBlock 7%N 1)
  = (mkSim (inr (zeroHash, 0)) (inr [zeroHash]) [7%N; 7%N] [(7%N, 3%N)] [], None)
  ∧ blockPeer (handleBlockMsg (invDemo (inr [zeroHash]) [])
                 (mkBlockMsg (mkBlock 7%N 1) 0%nat) 0) !! 7%N
    = Some 0%nat.
Proof.
  split; [reflexivity |].
  destruct (handleBlockMsg_origin (invDemo (inr [zeroHash]) [])
              (mkBlockMsg (mkBlock 7%N 1) 0%nat) 0
              (mkSim (inr (zeroHash, 0)) (inr [zeroHash]) [7%N; 7%N] [(7%N, 3%N)] []))
    as [Hentry _]; [reflexivity |].
  exact Hentry.
Defined.

(** A line at ten seconds, a block five nanoseconds later. *)
Lemma logBlockHeight_throttled_witness :
  1000000000 * 10 <= 10000000000 - lastBlockLogTime rejectDemo
  ∧ 10000000005 - 10000000000 < 1000000000 * 10
  ∧ receivedLogBlocks
      (logBlockHeight (logBlockHeight rejectDemo 3 1 10000000000) 2 2 10000000005) = 1.
Proof.
  assert (Hfirst : 1000000000 * 10 <= 10000000000 - lastBlockLogTime rejectDemo)
    by (simpl; lia).
  assert (Hsecond : 10000000005 - 10000000000 < 1000000000 * 10) by lia.
  split; [exact Hfirst |]. split; [exact Hsecond |].
  apply (logBlockHeight_throttled rejectDemo 3 1 10000000000 2 2 10000000005
           Hfirst Hsecond).
Defined.

(** Orphan 7 with root 3: the entry of 7 survives the request. *)
Lemma handleNotifyMsg_orphan_entry_witness :
  blockPeer (notifyDemo (inr [zeroHash])) !! 7%N = Some 0%nat
  ∧ LatestBlockLocator (blockChain (notifyDemo (inr [zeroHash]))) = inr [zeroHash]
  ∧ blockPeer
      (set_blockPeer (delete 3%N (blockPeer (notifyDemo (inr [zeroHash]))))
         (emit (PushGetBlocksMsg 0%nat [zeroHash] 3%N) (notifyDemo (inr [zeroHash]))))
      !! 7%N
    = Some 0%nat.
Proof.
  split; [reflexivity |]. split; [reflexivity |].
  destruct (handleNotifyMsg_orphan_entry (notifyDemo (inr [zeroHash])) 7%N 0%nat
              [zeroHash]
              (set_blockPeer (delete 3%N (blockPeer (notifyDemo (inr [zeroHash]))))
                 (emit (PushGetBlocksMsg 0%nat [zeroHash] 3%N)
                    (notifyDemo (inr [zeroHash])))))
    as [Hentry _]; [reflexivity | reflexivity | reflexivity |].
  exact Hentry.
Defined.

(** An accepted block 9 is relayed. *)
Lemma handleNotifyMsg_events_witness :
  handleNotifyMsg rejectDemo (mkNotification NTBlockAccepted (DataBlock (mkBlock 9%N 1)))
  = Some (emit (RelayInventory (blockInv 9%N)) rejectDemo)
  ∧ ∃ evs : list event,
      trace (emit (RelayInventory (blockInv 9%N)) rejectDemo) = trace rejectDemo ++ evs
      ∧ (length evs ≤ 1)%nat.
Proof.
  split; [reflexivity |].
  destruct (handleNotifyMsg_events rejectDemo
              (mkNotification NTBlockAccepted (DataBlock (mkBlock 9%N 1)))
              (emit (RelayInventory (blockInv 9%N)) rejectDemo) eq_refl)
    as (evs & Htrace & Hlen & _).
  exists evs. split; [exact Htrace | exact Hlen].
Defined.

(** Orphan 7 arrives from peer 0 and is announced: peer 0 is asked for the
    blocks up to the root 3. *)
Lemma orphan_block_then_notification_witness :
  ProcessBlock (blockChain (invDemo (inr [zeroHash]) [])) (mkBlock 7%N 1)
  = (mkSim (inr (zeroHash, 0)) (inr [zeroHash]) [7%N; 7%N] [(7%N, 3%N)] [], None)
  ∧ ∃ b',
      handleNotifyMsg
        (handleBlockMsg (invDemo (inr [zeroHash]) []) (mkBlockMsg (mkBlock 7%N 1) 0%nat) 0)
        (mkNotification NTOrphanBlock (DataHash 7%N)) = Some b'
      ∧ trace b' = [PushGetBlocksMsg 0%nat [zeroHash] 3%N].
Proof.
  split; [reflexivity |].
  destruct (orphan_block_then_notification (invDemo (inr [zeroHash]) [])
              (mkBlockMsg (mkBlock 7%N 1) 0%nat) 0
              (mkSim (inr (zeroHash, 0)) (inr [zeroHash]) [7%N; 7%N] [(7%N, 3%N)] []))
    as (b' & Hrun & Htrace); [reflexivity | reflexivity |].
  exists b'. split; [exact Hrun | exact Htrace].
Defined.

(** The same block where the locator lookup fails: an error line and no
    request. *)
Example orphan_block_then_notification_no_locator :
  trace
    <$> handleNotifyMsg
          (handleBlockMsg (invDemo (inl "no locator"%string) [])
             (mkBlockMsg (mkBlock 7%N 1) 0%nat) 0)
          (mkNotification NTOrphanBlock (DataHash 7%N))
  = Some [Log LError "[BMGR] Failed to get block locator for the latest block"].
Proof. reflexivity. Qed.

(** ** More on inventory handling *)

Section InvMore.
Context {chain : Type} `{ChainEngine chain}.
Variable MaxInvPerMsg : nat.
Implicit Types (b : blockManager chain) (p : peerRef) (iv : InvVect)
  (ivs : list InvVect).

Lemma findLastBlock_upto ivs n :
  (n ≤ length ivs)%nat →
  (findLastBlock ivs n = -1
   ∧ ∀ j iv, ivs !! j = Some iv → (j < n)%nat → Type_ iv ≠ InvVect_Block)
  ∨ (∃ i iv,
       findLastBlock ivs n = Z.of_nat i ∧ (i < n)%nat
       ∧ ivs !! i = Some iv ∧ Type_ iv = InvVect_Block
       ∧ ∀ j iv', ivs !! j = Some iv' → (i < j)%nat → (j < n)%nat →
                  Type_ iv' ≠ InvVect_Block).
Proof.
  induction n as [|n IH]; intros Hn; simpl.
  { left. split; [done |]. intros j iv _ Hj. lia. }
  destruct (lookup_lt_is_Some_2 ivs n) as [iv Hiv]; [lia |]. rewrite Hiv.
  destruct (decide (Type_ iv = InvVect_Block)) as [Hblock|Hother].
  { right. exists n, iv. split_and!; try done; [lia |]. intros j iv' _ ? ?. lia. }
  destruct IH as [[Hnone Hall] | (i & iv0 & Hi & Hlt & Hiv0 & Hblock & Hlater)]; [lia | |].
  - left. split; [done |]. intros j iv' Hj Hjn.
    destruct (decide (j = n)) as [->|]; [congruence |]. apply (Hall j iv' Hj). lia.
  - right. exists i, iv0. split_and!; try done; [lia |].
    intros j iv' Hj Hij Hjn.
    destruct (decide (j = n)) as [->|]; [congruence |]. apply (Hlater j iv' Hj); lia.
Qed.

(** X13.  The search for the final block entry returns -1 exactly when the
    list has no block entry, and otherwise the index of a block entry after
    which no block entry follows. *)
Theorem findLastBlock_last ivs :
  (findLastBlock ivs (length ivs) = -1
   ∧ ∀ iv, iv ∈ ivs → Type_ iv ≠ InvVect_Block)
  ∨ (∃ i iv,
       findLastBlock ivs (length ivs) = Z.of_nat i
       ∧ ivs !! i = Some iv ∧ Type_ iv = InvVect_Block
       ∧ ∀ j iv', ivs !! j = Some iv' → (i < j)%nat → Type_ iv' ≠ InvVect_Block).
Proof.
  destruct (findLastBlock_upto ivs (length ivs))
    as [[Hnone Hall] | (i & iv & Hi & Hlt & Hiv & Hblock & Hlater)]; [lia | |].
  - left. split; [done |]. intros iv [j Hj]%list_elem_of_lookup.
    apply (Hall j iv Hj). by eapply lookup_lt_Some.
  - right. exists i, iv. split_and!; try done.
    intros j iv' Hj Hij. apply (Hlater j iv' Hj Hij). by eapply lookup_lt_Some.
Qed.

(** An index is the one found exactly when it is the last block entry. *)
Lemma findLastBlock_index ivs k iv :
  ivs !! k = Some iv →
  Type_ iv = InvVect_Block →
  Z.of_nat k = findLastBlock ivs (length ivs)
  ↔ ∀ j iv', ivs !! j = Some iv' → (k < j)%nat → Type_ iv' ≠ InvVect_Block.
Proof.
  intros Hk Hblock.
  destruct (findLastBlock_upto ivs (length ivs))
    as [[Hnone Hall] | (i & iv0 & Hi & Hlt & Hiv0 & Hblock0 & Hlater)]; [lia | |].
  - exfalso. apply (Hall k iv Hk); [by eapply lookup_lt_Some | done].
  - rewrite Hi. split.
    + intros Heq j iv' Hj Hkj. assert (k = i) as -> by lia.
      apply (Hlater j iv' Hj Hkj). by eapply lookup_lt_Some.
    + intros Hlast. f_equal.
      destruct (decide (k < i)%nat) as [Hki|Hki].
      { exfalso. by apply (Hlast i iv0 Hiv0 Hki). }
      destruct (decide (i < k)%nat) as [Hik|Hik]; [|lia].
      exfalso. apply (Hlater k iv Hk Hik); [by eapply lookup_lt_Some | done].
Qed.

Lemma invScan_no_blocks p idx ivs : ∀ b i,
  (∀ iv, iv ∈ ivs → Type_ iv ≠ InvVect_Block) →
  invScan p idx b i ivs = b.
Proof.
  induction ivs as [|iv ivs IH]; intros b i Hall; simpl; [done |].
  unfold invEntry. rewrite decide_False by (apply Hall, list_elem_of_here).
  apply IH. intros iv' Hin. by apply Hall, list_elem_of_further.
Qed.

(** X14.  Entries of a type other than block are ignored: a message that
    holds no block entry does what an empty message does, which is draining
    the request queue. *)
Theorem handleInvMsg_ignores_other_types b ivs p :
  (∀ iv, iv ∈ ivs → Type_ iv ≠ InvVect_Block) →
  handleInvMsg MaxInvPerMsg b (mkInvMsg ivs p)
  = handleInvMsg MaxInvPerMsg b (mkInvMsg [] p).
Proof.
  intros Hall. unfold handleInvMsg. simpl. by rewrite invScan_no_blocks.
Qed.

(** [sameButQueue] is kept by the steps of [handleInvMsg]. *)
Lemma sameButQueue_refl p b : sameButQueue p b b.
Proof. unfold sameButQueue. by split_and!. Qed.

Lemma sameButQueue_trans p b1 b2 b3 :
  sameButQueue p b1 b2 → sameButQueue p b2 b3 → sameButQueue p b1 b3.
Proof.
  unfold sameButQueue.
  intros (? & ? & ? & ? & ? & ? & ? & ? & ? & ? & ? & ? & Hm12 & ? & ?)
         (? & ? & ? & ? & ? & ? & ? & ? & ? & ? & ? & ? & Hm23 & ? & ?).
  split_and!; try congruence.
  intros r Hr. rewrite (Hm23 r Hr). by apply Hm12.
Qed.

Lemma sameButQueue_emit p ev b : sameButQueue p b (emit ev b).
Proof. unfold sameButQueue. by split_and!. Qed.

Lemma sameButQueue_set p q b : sameButQueue p b (set_requestQueue p q b).
Proof.
  unfold sameButQueue, set_requestQueue. simpl.
  split_and!; try done.
  - intros r Hr. by rewrite decide_False.
  - by rewrite decide_True.
  - by rewrite decide_True.
Qed.

Lemma invEntry_events p idx b i iv :
  trace (invEntry p idx b i iv)
  = trace b ++ invEntryEvents (blockChain b) p idx i iv
  ∧ blockChain (invEntry p idx b i iv) = blockChain b
  ∧ sameButQueue p b (invEntry p idx b i iv).
Proof.
  unfold invEntry, invEntryEvents.
  destruct (decide (Type_ iv = InvVect_Block)); simpl;
    [|split_and!; [by rewrite app_nil_r | done | apply sameButQueue_refl]].
  destruct (HaveInventory (blockChain b) iv); simpl.
  2:{ split_and!; [done | done |].
      eapply sameButQueue_trans; [apply sameButQueue_emit | apply sameButQueue_set]. }
  destruct (IsKnownOrphan (blockChain b) (Hash iv)).
  - destruct (LatestBlockLocator (blockChain b)); simpl;
      (split_and!; [by rewrite <- (assoc_L (++)) | done |]);
      (eapply sameButQueue_trans; apply sameButQueue_emit).
  - destruct (decide (Z.of_nat i = idx)); simpl.
    + split_and!; [by rewrite <- (assoc_L (++)) | done |].
      eapply sameButQueue_trans; apply sameButQueue_emit.
    + split_and!; [done | done | apply sameButQueue_emit].
Qed.

Lemma invScan_events p idx ivs : ∀ b i,
  trace (invScan p idx b i ivs)
  = trace b ++ invScanEvents (blockChain b) p idx i ivs
  ∧ blockChain (invScan p idx b i ivs) = blockChain b
  ∧ sameButQueue p b (invScan p idx b i ivs).
Proof.
  induction ivs as [|iv ivs IH]; intros b i; simpl.
  { split_and!; [by rewrite app_nil_r | done | apply sameButQueue_refl]. }
  destruct (invEntry_events p idx b i iv) as (Ht1 & Hc1 & Hs1).
  destruct (IH (invEntry p idx b i iv) (S i)) as (Ht2 & Hc2 & Hs2).
  rewrite Ht2, Ht1, Hc2, Hc1. split_and!; [by rewrite (assoc_L (++)) | done |].
  by eapply sameButQueue_trans.
Qed.

Lemma drain_loop_frame p : ∀ fuel b e gdmsg n b' gdmsg',
  drain_loop MaxInvPerMsg fuel p b e gdmsg n = Some (b', gdmsg') →
  trace b' = trace b ∧ sameButQueue p b b'.
Proof.
  induction fuel as [|fuel IH]; intros b e gdmsg n b' gdmsg'; simpl.
  { destruct e; [discriminate |]. intros [= <- <-]. split; [done | apply sameButQueue_refl]. }
  destruct e as [e|]; [|intros [= <- <-]; split; [done | apply sameButQueue_refl]].
  destruct (decide (MaxInvPerMsg ≤ S n)%nat).
  - intros [= <- <-]. split; [done | apply sameButQueue_set].
  - intros Hrun. apply IH in Hrun as [Ht Hs]. split; [done |].
    eapply sameButQueue_trans; [apply sameButQueue_set | exact Hs].
Qed.

(** [handleInvMsg] emits the events of the scan and then, at most, the
    get-data message. *)
Lemma handleInvMsg_trace b imsg b' :
  handleInvMsg MaxInvPerMsg b imsg = Some b' →
  sameButQueue (im_peer imsg) b b'
  ∧ ∃ fetch,
      trace b'
      = trace b
        ++ invScanEvents (blockChain b) (im_peer imsg)
             (findLastBlock (InvList imsg) (length (InvList imsg))) 0 (InvList imsg)
        ++ fetch
      ∧ (fetch = [] ∨ ∃ m, fetch = [QueueMessage (im_peer imsg) m]).
Proof.
  unfold handleInvMsg. cbv zeta.
  destruct (invScan_events (im_peer imsg)
              (findLastBlock (InvList imsg) (length (InvList imsg)))
              (InvList imsg) b 0) as (Ht & Hc & Hs).
  set (b1 := invScan _ _ b 0%nat (InvList imsg)) in *.
  destruct (drain_loop _ _ _ b1 _ _ _) as [[b2 gdmsg]|] eqn:Hdrain; [|discriminate].
  apply drain_loop_frame in Hdrain as [Ht2 Hs2]. simpl.
  destruct (decide (0 < length gdmsg)%nat); intros [= <-].
  - split.
    + eapply sameButQueue_trans; [exact Hs |].
      eapply sameButQueue_trans; [exact Hs2 | apply sameButQueue_emit].
    + eexists [_]. simpl. rewrite Ht2, Ht, <- (assoc_L (++)). split; [done |]. by eauto.
  - split; [by eapply sameButQueue_trans |].
    exists []. rewrite Ht2, Ht, app_nil_r. split; [done | by left].
Qed.
Lemma invScanEvents_known (c : chain) p idx ivs : ∀ i,
  omap knownOf (invScanEvents c p idx i ivs)
  = (λ iv, (p, iv)) <$> filter (λ iv, Type_ iv = InvVect_Block) ivs.
Proof.
  induction ivs as [|iv ivs IH]; intros i; simpl; [done |].
  rewrite omap_app, IH, filter_cons. unfold invEntryEvents.
  destruct (decide (Type_ iv = InvVect_Block)); simpl; [|done].
  destruct (HaveInventory c iv); [|done].
  destruct (IsKnownOrphan c (Hash iv)).
  - by destruct (LatestBlockLocator c).
  - by destruct (decide (Z.of_nat i = idx)).
Qed.

Lemma invEntryEvents_pushes (c : chain) p idx i iv r l s :
  PushGetBlocksMsg r l s ∈ invEntryEvents c p idx i iv
  ↔ r = p ∧ Type_ iv = InvVect_Block ∧ HaveInventory c iv = true
    ∧ ((IsKnownOrphan c (Hash iv) = true ∧ LatestBlockLocator c = inr l
        ∧ s = GetOrphanRoot c (Hash iv))
       ∨ (IsKnownOrphan c (Hash iv) = false ∧ Z.of_nat i = idx
          ∧ l = BlockLocatorFromHash c (Hash iv) ∧ s = zeroHash)).
Proof.
  unfold invEntryEvents.
  destruct (decide (Type_ iv = InvVect_Block)) as [Hblock|Hother];
    [|split; trace_facts].
  destruct (HaveInventory c iv); [|split; trace_facts].
  destruct (IsKnownOrphan c (Hash iv)).
  - destruct (LatestBlockLocator c) as [err|locator]; split; trace_facts.
  - destruct (decide (Z.of_nat i = idx)); split; trace_facts.
Qed.

Lemma invScanEvents_pushes (c : chain) p idx ivs r l s : ∀ i,
  PushGetBlocksMsg r l s ∈ invScanEvents c p idx i ivs
  ↔ r = p
    ∧ ∃ k iv,
        ivs !! k = Some iv ∧ Type_ iv = InvVect_Block ∧ HaveInventory c iv = true
        ∧ ((IsKnownOrphan c (Hash iv) = true ∧ LatestBlockLocator c = inr l
            ∧ s = GetOrphanRoot c (Hash iv))
           ∨ (IsKnownOrphan c (Hash iv) = false ∧ Z.of_nat (i + k) = idx
              ∧ l = BlockLocatorFromHash c (Hash iv) ∧ s = zeroHash)).
Proof.
  induction ivs as [|iv ivs IH]; intros i; simpl.
  { rewrite elem_of_nil. split; [done |]. by intros (_ & k & iv & ? & _). }
  rewrite elem_of_app, invEntryEvents_pushes, IH. split.
  - intros [(-> & Hblock & Hhave & Hcase) | (-> & k & iv' & Hk & Hblock & Hhave & Hcase)].
    + split; [done |]. exists 0%nat, iv. rewrite Nat.add_0_r. by split_and!.
    + split; [done |]. exists (S k), iv'. split_and!; try done.
      by replace (i + S k)%nat with (S i + k)%nat by lia.
  - intros (-> & [|k] & iv' & Hk & Hblock & Hhave & Hcase).
    + left. simpl in Hk. injection Hk as <-. rewrite Nat.add_0_r in Hcase.
      by split_and!.
    + right. split; [done |]. exists k, iv'. split_and!; try done.
      by replace (S i + k)%nat with (i + S k)%nat by lia.
Qed.

(** X15.  Every block entry of the message, unknown or not, is added to the
    peer's known inventory, once per entry and in the order of the message;
    nothing else is. *)
Theorem handleInvMsg_known_inventory b imsg b' :
  handleInvMsg MaxInvPerMsg b imsg = Some b' →
  ∃ evs,
    trace b' = trace b ++ evs
    ∧ omap knownOf evs
      = (λ iv, (im_peer imsg, iv))
          <$> filter (λ iv, Type_ iv = InvVect_Block) (InvList imsg).
Proof.
  intros Hrun. apply handleInvMsg_trace in Hrun as (_ & fetch & Ht & Hfetch).
  eexists. split; [exact Ht |].
  rewrite omap_app, invScanEvents_known.
  destruct Hfetch as [->|[m ->]]; simpl; by rewrite app_nil_r.
Qed.

(** X16.  The get-blocks requests of [handleInvMsg] all go to the peer that
    sent the message, and there are two kinds, those and no others: one from
    the latest locator to the orphan's root for each block entry that the
    chain has as a known orphan, if the locator lookup succeeds; and one
    from the locator of the entry's hash, with zero stop hash, for the last
    block entry of the message if the chain has it and it is no orphan. *)
Theorem handleInvMsg_getblocks b imsg b' :
  handleInvMsg MaxInvPerMsg b imsg = Some b' →
  ∃ evs fetch,
    trace b' = trace b ++ evs ++ fetch
    ∧ (∀ r l s, PushGetBlocksMsg r l s ∉ fetch)
    ∧ ∀ r l s,
        PushGetBlocksMsg r l s ∈ evs
        ↔ r = im_peer imsg
          ∧ ∃ k iv,
              InvList imsg !! k = Some iv ∧ Type_ iv = InvVect_Block
              ∧ HaveInventory (blockChain b) iv = true
              ∧ ((IsKnownOrphan (blockChain b) (Hash iv) = true
                  ∧ LatestBlockLocator (blockChain b) = inr l
                  ∧ s = GetOrphanRoot (blockChain b) (Hash iv))
                 ∨ (IsKnownOrphan (blockChain b) (Hash iv) = false
                    ∧ (∀ j iv', InvList imsg !! j = Some iv' → (k < j)%nat →
                                Type_ iv' ≠ InvVect_Block)
                    ∧ l = BlockLocatorFromHash (blockChain b) (Hash iv)
                    ∧ s = zeroHash)).
Proof.
  intros Hrun. apply handleInvMsg_trace in Hrun as (_ & fetch & Ht & Hfetch).
  eexists _, fetch. split; [exact Ht |]. split.
  { intros r l s Hin. destruct Hfetch as [->|[m ->]].
    - by apply elem_of_nil in Hin.
    - apply list_elem_of_singleton in Hin. discriminate. }
  intros r l s. rewrite invScanEvents_pushes. split.
  - intros (-> & k & iv & Hk & Hblock & Hhave & Hcase). split; [done |].
    exists k, iv. split_and!; try done.
    destruct Hcase as [?|(Horphan & Hidx & -> & ->)]; [by left | right].
    split_and!; try done. by apply (findLastBlock_index _ k iv Hk Hblock).
  - intros (-> & k & iv & Hk & Hblock & Hhave & Hcase). split; [done |].
    exists k, iv. split_and!; try done.
    destruct Hcase as [?|(Horphan & Hlast & -> & ->)]; [by left | right].
    split_and!; try done. by apply (findLastBlock_index _ k iv Hk Hblock).
Qed.

(** X17.  [handleInvMsg] changes nothing but the log of events and the
    request queue of the peer that sent the message: the chain, the origin
    map, the sync peer, the counters, the queues and flags of the manager
    and every other peer stay as they are. *)
Theorem handleInvMsg_frame b imsg b' :
  handleInvMsg MaxInvPerMsg b imsg = Some b' →
  sameButQueue (im_peer imsg) b b'.
Proof. intros Hrun. by apply handleInvMsg_trace in Hrun as [Hsame _]. Qed.
End InvMore.

(** A message that announces one transaction. *)
Lemma handleInvMsg_ignores_other_types_witness :
  (∀ iv, iv ∈ [mkInvVect InvVect_Tx 5%N] → Type_ iv ≠ InvVect_Block)
  ∧ handleInvMsg 2 (invDemo (inr [zeroHash]) [blockInv 20%N])
      (mkInvMsg [mkInvVect InvVect_Tx 5%N] 0%nat)
    = handleInvMsg 2 (invDemo (inr [zeroHash]) [blockInv 20%N]) (mkInvMsg [] 0%nat).
Proof.
  assert (Hall : ∀ iv, iv ∈ [mkInvVect InvVect_Tx 5%N] → Type_ iv ≠ InvVect_Block).
  { intros iv Hin. apply list_elem_of_singleton in Hin. subst iv. discriminate. }
  split; [exact Hall |].
  apply (handleInvMsg_ignores_other_types 2 (invDemo (inr [zeroHash]) [blockInv 20%N])
           [mkInvVect InvVect_Tx 5%N] 0%nat Hall).
Defined.

(** A transaction, an unknown block and the orphan 7 announced by peer 0. *)
Lemma handleInvMsg_known_inventory_witness :
  ∃ b' evs,
    handleInvMsg 2 (invDemo (inr [zeroHash]) [])
      (mkInvMsg [mkInvVect InvVect_Tx 5%N; blockInv 21%N; blockInv 7%N] 0%nat) = Some b'
    ∧ trace b' = evs
    ∧ omap knownOf evs = [(0%nat, blockInv 21%N); (0%nat, blockInv 7%N)].
Proof.
  destruct (handleInvMsg 2 (invDemo (inr [zeroHash]) [])
              (mkInvMsg [mkInvVect InvVect_Tx 5%N; blockInv 21%N; blockInv 7%N] 0%nat))
    as [b'|] eqn:Hrun; [|vm_compute in Hrun; discriminate].
  destruct (handleInvMsg_known_inventory 2 _ _ b' Hrun) as (evs & Ht & Hknown).
  exists b', evs. split; [reflexivity |]. split; [exact Ht | exact Hknown].
Defined.

(** Blocks 7 and 8 are known and no orphans: the request starts from block
    8, the last block entry. *)
Lemma handleInvMsg_getblocks_witness :
  ∃ b' (evs : list event),
    handleInvMsg 2
      (set_blockChain (mkSim (inr (zeroHash, 0)) (inr [zeroHash]) [7%N; 8%N] [] [])
         (invDemo (inr [zeroHash]) []))
      (mkInvMsg [blockInv 7%N; blockInv 8%N] 0%nat) = Some b'
    ∧ (∃ fetch, trace b' = evs ++ fetch)
    ∧ PushGetBlocksMsg 0%nat [8%N] zeroHash ∈ evs.
Proof.
  destruct (handleInvMsg 2
              (set_blockChain (mkSim (inr (zeroHash, 0)) (inr [zeroHash]) [7%N; 8%N] [] [])
                 (invDemo (inr [zeroHash]) []))
              (mkInvMsg [blockInv 7%N; blockInv 8%N] 0%nat))
    as [b'|] eqn:Hrun; [|vm_compute in Hrun; discriminate].
  destruct (handleInvMsg_getblocks 2 _ _ b' Hrun) as (evs & fetch & Ht & _ & Hpush).
  exists b', evs. split; [reflexivity |]. split; [exists fetch; exact Ht |].
  apply Hpush. split; [reflexivity |].
  exists 1%nat, (blockInv 8%N). split; [reflexivity |]. split; [reflexivity |].
  split; [reflexivity |]. right. split; [reflexivity |]. split; [|split; reflexivity].
  intros [|[|[|j]]] iv' Hj Hlt; simpl in Hj; try lia; discriminate.
Defined.

(** Peer 0 announces an unknown block: peer 1 is untouched. *)
Lemma handleInvMsg_frame_witness :
  ∃ b',
    handleInvMsg 2 (invDemo (inr [zeroHash]) []) (mkInvMsg [blockInv 21%N] 0%nat)
    = Some b'
    ∧ mem b' 1%nat = mem (invDemo (inr [zeroHash]) []) 1%nat.
Proof.
  destruct (handleInvMsg 2 (invDemo (inr [zeroHash]) []) (mkInvMsg [blockInv 21%N] 0%nat))
    as [b'|] eqn:Hrun; [|vm_compute in Hrun; discriminate].
  exists b'. split; [reflexivity |].
  apply (handleInvMsg_frame 2 _ _ b' Hrun). discriminate.
Defined.

(** ** More on submission, the block handler and the life cycle *)

Section HandlerMore.
Context {chain : Type} `{ChainEngine chain}.
Variable MaxInvPerMsg : nat.
Implicit Types (b : blockManager chain) (p : peerRef).

Lemma handleBlockMsg_queues b bmsg now :
  shutdown (handleBlockMsg b bmsg now) = shutdown b
  ∧ blockQueue (handleBlockMsg b bmsg now) = blockQueue b.
Proof.
  unfold handleBlockMsg. simpl.
  destruct (ProcessBlock (blockChain b) (bm_block bmsg)) as [c [err|]]; simpl; [done |].
  destruct (IsKnownOrphan c (Sha (bm_block bmsg))); simpl;
    destruct (NewestSha c) as [err|[hash height]]; simpl;
    unfold logBlockHeight; try case_bool_decide; by simpl.
Qed.

(** The block handler takes the messages at the front of the queue one by
    one and answers each with [true]. *)
Lemma blockHandler_run msgs : ∀ b rest nows,
  shutdown b = false →
  blockQueue b = msgs ++ rest →
  length nows = length msgs →
  ∃ b' evs,
    blockHandler MaxInvPerMsg (RecvBlock <$> nows) b true = Some (b', true)
    ∧ shutdown b' = false
    ∧ blockQueue b' = rest
    ∧ trace b' = trace b ++ evs
    ∧ omap signalOf evs = (λ m, (bm_peer m, true)) <$> msgs.
Proof.
  induction msgs as [|m msgs IH]; intros b rest nows Hshut Hqueue Hlen.
  { destruct nows; [|discriminate]. exists b, []. by rewrite app_nil_r. }
  destruct nows as [|now nows]; [discriminate |]. simpl in Hlen.
  cbn [fmap list_fmap blockHandler]. unfold blockHandler_turn.
  rewrite Hshut, Hqueue. cbn [app mbind option_bind].
  destruct (handleBlockMsg_trace (set_blockQueue (msgs ++ rest) b) m now)
    as (evs1 & Ht1 & Hlog).
  destruct (handleBlockMsg_queues (set_blockQueue (msgs ++ rest) b) m now) as [Hs1 Hq1].
  set (b1 := handleBlockMsg (set_blockQueue (msgs ++ rest) b) m now) in *.
  destruct (IH (emit (BlockProcessed (bm_peer m) true) b1) rest nows)
    as (b' & evs & Hrun & Hshut' & Hqueue' & Ht' & Hsig); [by rewrite <- Hshut | done | lia |].
  exists b', (evs1 ++ BlockProcessed (bm_peer m) true :: evs).
  split; [exact Hrun |]. split; [done |]. split; [done |]. split.
  { rewrite Ht'. simpl. rewrite Ht1. simpl. by rewrite <- !(assoc_L (++)). }
  rewrite omap_app.
  change (omap signalOf (BlockProcessed (bm_peer m) true :: evs))
    with ((bm_peer m, true) :: omap signalOf evs).
  rewrite Hsig.
  assert (omap signalOf evs1 = []) as ->; [|done].
  clear -Hlog. induction evs1 as [|ev evs1 IH]; [done |].
  destruct (Hlog ev) as (lvl & text & ->); [apply list_elem_of_here |]. simpl.
  apply IH. intros ev' Hin. by apply Hlog, list_elem_of_further.
Qed.

(** X18.  Blocks are handled in the order of submission: after at most
    [chanBufferSize] blocks have been submitted with [QueueBlock] to a
    manager that is not shut down and has an empty queue, every one of the
    sends having found room on the channel, as many turns of the block
    handler empty the queue and send [true] to the submitting peers, once
    per block and in the order of the calls, and nothing else to any peer's
    [blockProcessed]. *)
Theorem blocks_signalled_in_order b (msgs : list blockMsg) (nows : list Z) :
  shutdown b = false →
  blockQueue b = [] →
  (length msgs ≤ chanBufferSize)%nat →
  length nows = length msgs →
  (∀ k, (k < length msgs)%nat →
        (length (blockQueue (foldl (λ b m, QueueBlock b (bm_block m) (bm_peer m)) b
                               (take k msgs)))
         < chanBufferSize)%nat)
  ∧ ∃ b' evs,
      blockHandler MaxInvPerMsg (RecvBlock <$> nows)
        (foldl (λ b m, QueueBlock b (bm_block m) (bm_peer m)) b msgs) true
      = Some (b', true)
      ∧ blockQueue b' = []
      ∧ trace b' = trace b ++ evs
      ∧ omap signalOf evs = (λ m, (bm_peer m, true)) <$> msgs.
Proof.
  intros Hshut Hqueue Hroom Hlen.
  assert (Hfold : ∀ ms b0, shutdown b0 = false →
            shutdown (foldl (λ b m, QueueBlock b (bm_block m) (bm_peer m)) b0 ms) = false
            ∧ blockQueue (foldl (λ b m, QueueBlock b (bm_block m) (bm_peer m)) b0 ms)
              = blockQueue b0 ++ ms
            ∧ trace (foldl (λ b m, QueueBlock b (bm_block m) (bm_peer m)) b0 ms)
              = trace b0).
  { induction ms as [|[blk p] ms IH]; intros b0 Hb0; simpl.
    { by rewrite app_nil_r. }
    unfold QueueBlock at 2 4 6. rewrite Hb0.
    destruct (IH (set_blockQueue (blockQueue b0 ++ [mkBlockMsg blk p]) b0) Hb0)
      as (Hs & Hq & Ht).
    split_and!; [done | | done]. rewrite Hq. simpl. by rewrite <- (assoc_L (++)). }
  split.
  { intros k Hk. destruct (Hfold (take k msgs) b Hshut) as (_ & Hq & _).
    rewrite Hq, Hqueue. simpl. rewrite length_take. lia. }
  destruct (Hfold msgs b Hshut) as (Hs & Hq & Ht).
  rewrite Hqueue in Hq. simpl in Hq.
  destruct (blockHandler_run msgs _ [] nows Hs) as (b' & evs & Hrun & _ & Hq' & Ht' & Hsig);
    [by rewrite app_nil_r | done |].
  exists b', evs. rewrite <- Ht. by split_and!.
Qed.

(** X19.  [QueueInv] and the handler: an inventory message submitted to a
    manager that is not shut down and has an empty inventory queue is what
    the next inventory turn of the block handler passes to [handleInvMsg],
    and the peer gets no signal for it. *)
Theorem QueueInv_then_turn b inv p :
  shutdown b = false →
  invQueue b = [] →
  blockHandler_turn MaxInvPerMsg RecvInv (QueueInv b inv p)
  = (λ b', (b', true)) <$> handleInvMsg MaxInvPerMsg b (mkInvMsg inv p)
  ∧ trace (QueueInv b inv p) = trace b.
Proof.
  intros Hshut Hqueue. unfold QueueInv, blockHandler_turn. rewrite Hshut. simpl.
  rewrite Hshut, Hqueue. simpl. split; [|done].
  assert (set_invQueue [] (set_invQueue [mkInvMsg inv p] b) = b) as ->.
  { destruct b. simpl in *. by subst. }
  by destruct (handleInvMsg MaxInvPerMsg b (mkInvMsg inv p)).
Qed.

(** X20.  The quit channel is closed once.  In a state where the channel is
    closed only if shutdown has begun, which [Start] and [Stop] keep up,
    [Stop] does not panic and returns nil with the flag set and the channel
    closed; it closes the channel and waits for the handlers exactly when
    shutdown had not begun. *)
Theorem Stop_closes_once b :
  (quit b = true → shutdown b = true) →
  (quit (Start b) = true → shutdown (Start b) = true)
  ∧ ∃ b' evs,
      Stop b = Some (b', None)
      ∧ shutdown b' = true
      ∧ (shutdown b = false → quit b' = true)
      ∧ (quit b' = true → shutdown b' = true)
      ∧ trace b' = trace b ++ evs
      ∧ (CloseQuit ∈ evs ↔ shutdown b = false)
      ∧ (WgWait ∈ evs ↔ shutdown b = false).
Proof.
  intros Hinv. split.
  { unfold Start. by destruct (started b). }
  unfold Stop. destruct (shutdown b) eqn:Hshut.
  - eexists _, [_]. split_and!; try done.
    + split; [intros Hin; exfalso; by not_in_trace Hin | done].
    + split; [intros Hin; exfalso; by not_in_trace Hin | done].
  - simpl. destruct (quit b) eqn:Hquit; [by specialize (Hinv eq_refl) |].
    eexists _, [_; _; _]. split_and!; try done.
    + simpl. by rewrite <- !(assoc_L (++)).
    + split; [done |]. intros _. apply list_elem_of_further, list_elem_of_here.
    + split; [done |]. intros _.
      apply list_elem_of_further, list_elem_of_further, list_elem_of_here.
Qed.
End HandlerMore.

(** Peer 0 submits block 9, then peer 1 submits block 10. *)
Lemma blocks_signalled_in_order_witness :
  shutdown rejectDemo = false ∧ blockQueue rejectDemo = []
  ∧ (2 ≤ chanBufferSize)%nat
  ∧ ∃ b' evs,
      blockHandler 2 (RecvBlock <$> [0; 0])
        (foldl (λ b m, QueueBlock b (bm_block m) (bm_peer m)) rejectDemo
           [mkBlockMsg (mkBlock 9%N 1) 0%nat; mkBlockMsg (mkBlock 10%N 1) 1%nat]) true
      = Some (b', true)
      ∧ trace b' = evs
      ∧ omap signalOf evs = [(0%nat, true); (1%nat, true)].
Proof.
  assert (Hroom : (2 ≤ chanBufferSize)%nat) by (unfold chanBufferSize; lia).
  split; [reflexivity |]. split; [reflexivity |]. split; [exact Hroom |].
  destruct (blocks_signalled_in_order 2 rejectDemo
              [mkBlockMsg (mkBlock 9%N 1) 0%nat; mkBlockMsg (mkBlock 10%N 1) 1%nat]
              [0; 0] eq_refl eq_refl Hroom eq_refl) as (_ & b' & evs & Hrun & _ & Ht & Hsig).
  exists b', evs. split; [exact Hrun |]. split; [exact Ht | exact Hsig].
Defined.

(** Peer 0 announces block 21. *)
Lemma QueueInv_then_turn_witness :
  shutdown rejectDemo = false ∧ invQueue rejectDemo = []
  ∧ blockHandler_turn 2 RecvInv (QueueInv rejectDemo [blockInv 21%N] 0%nat)
    = (λ b', (b', true)) <$> handleInvMsg 2 rejectDemo (mkInvMsg [blockInv 21%N] 0%nat).
Proof.
  split; [reflexivity |]. split; [reflexivity |].
  apply (QueueInv_then_turn 2 rejectDemo [blockInv 21%N] 0%nat eq_refl eq_refl).
Defined.

(** A fresh manager is stopped. *)
Lemma Stop_closes_once_witness :
  (quit rejectDemo = true → shutdown rejectDemo = true)
  ∧ ∃ b' (evs : list event),
      Stop rejectDemo = Some (b', None) ∧ quit b' = true ∧ CloseQuit ∈ evs.
Proof.
  assert (Hinv : quit rejectDemo = true → shutdown rejectDemo = true)
    by (intros Hquit; discriminate Hquit).
  split; [exact Hinv |].
  destruct (Stop_closes_once rejectDemo Hinv)
    as (_ & b' & evs & Hrun & _ & Hquit & _ & _ & Hclose & _).
  exists b', evs. split; [exact Hrun |].
  split; [exact (Hquit eq_refl) | apply Hclose; reflexivity].
Defined.

(** ** Loading the block database *)

Section BlockDbFacts.
Context {world db : Type} `{Storage world db}.
Variable genesisBlock : Block.
Implicit Types (w : world) (d : db) (evs : list (ioEvent db)) (cfg : config).

(** What [removeRegressionDB] can emit. *)
Lemma removeRegressionDB_events cfg w dbPath :
  ∃ w' err evs,
    removeRegressionDB cfg w dbPath = (w', err, evs)
    ∧ ((evs = [] ∧ w' = w ∧ err = None
        ∧ (RegressionTest cfg = false ∨ ∃ e, Stat w dbPath = inl e))
       ∨ (∃ text, evs = [IOLog text; IORemoveAll dbPath]
                  ∧ RegressionTest cfg = true ∧ Stat w dbPath = inr true)
       ∨ (∃ text, evs = [IOLog text; IORemove dbPath]
                  ∧ RegressionTest cfg = true ∧ Stat w dbPath = inr false)).
Proof.
  unfold removeRegressionDB.
  destruct (RegressionTest cfg); simpl; [|eexists _, _, _; split; [done |]; left; eauto].
  destruct (Stat w dbPath) as [e|[]].
  - eexists _, _, _. split; [done |]. left. split_and!; eauto.
  - destruct (RemoveAll w dbPath) as [w' [err|]];
      eexists _, _, _; (split; [done |]); right; left; eauto.
  - destruct (Remove w dbPath) as [w' [err|]];
      eexists _, _, _; (split; [done |]); right; right; eauto.
Qed.

(** What happens once a handle has been obtained. *)
Lemma loadBlockDB_opened_cases w d evs0 :
  ∃ w' res evs,
    loadBlockDB_opened genesisBlock w d evs0 = (w', res, evs0 ++ evs)
    ∧ ((res = inr d ∧ (∃ text, evs = [IOLog text])
        ∧ ∃ hash height, dbNewestSha w d = inr (hash, height) ∧ height ≠ -1)
       ∨ (res = inr d
          ∧ (∃ text text', evs = [IOInsertBlock d genesisBlock; IOLog text; IOLog text'])
          ∧ ∃ hash, dbNewestSha w d = inr (hash, -1))
       ∨ ((∃ err, res = inl err) ∧ evs = [IOInsertBlock d genesisBlock; IOClose d]
          ∧ ∃ hash, dbNewestSha w d = inr (hash, -1))
       ∨ ((∃ err, res = inl err) ∧ evs = [IOClose d]
          ∧ ∃ err, dbNewestSha w d = inl err)).
Proof.
  unfold loadBlockDB_opened.
  destruct (dbNewestSha w d) as [err|[hash height]].
  { eexists _, _, _. split; [done |]. do 3 right. eauto. }
  destruct (decide (height = -1)) as [->|Hne].
  - destruct (dbInsertBlock w d genesisBlock) as [w' [err|]]; eexists _, _, _.
    + split; [by rewrite <- (assoc_L (++)) |]. right; right; left. eauto.
    + split; [by rewrite <- (assoc_L (++)) |]. right; left. eauto 10.
  - eexists _, _, _. split; [done |]. left. eauto 10.
Qed.

(** All runs of [loadBlockDB]: the events of the removal, the log line, the
    events of getting a handle and the events after that. *)
Lemma loadBlockDB_cases cfg w :
  ∃ w' res evsR evsO evsT text,
    loadBlockDB genesisBlock cfg w = (w', res, evsR ++ [IOLog text] ++ evsO ++ evsT)
    ∧ (evsR = []
       ∨ (∃ text, evsR = [IOLog text; IORemoveAll (blockDbPath cfg)]
                  ∧ RegressionTest cfg = true ∧ Stat w (blockDbPath cfg) = inr true)
       ∨ (∃ text, evsR = [IOLog text; IORemove (blockDbPath cfg)]
                  ∧ RegressionTest cfg = true ∧ Stat w (blockDbPath cfg) = inr false))
    ∧ (((∃ err, res = inl err) ∧ evsT = []
        ∧ (evsO = [IOOpenDB (DbType cfg) (blockDbPath cfg) None]
           ∨ evsO = [IOOpenDB (DbType cfg) (blockDbPath cfg) None;
                     IOMkdirAll (DataDir cfg)]
           ∨ evsO = [IOOpenDB (DbType cfg) (blockDbPath cfg) None;
                     IOMkdirAll (DataDir cfg);
                     IOCreateDB (DbType cfg) (blockDbPath cfg) None]))
       ∨ (∃ d,
            (evsO = [IOOpenDB (DbType cfg) (blockDbPath cfg) (Some d)]
             ∨ evsO = [IOOpenDB (DbType cfg) (blockDbPath cfg) None;
                       IOMkdirAll (DataDir cfg);
                       IOCreateDB (DbType cfg) (blockDbPath cfg) (Some d)])
            ∧ ((res = inr d ∧ ∃ text, evsT = [IOLog text])
               ∨ (res = inr d
                  ∧ ∃ text text', evsT = [IOInsertBlock d genesisBlock; IOLog text; IOLog text'])
               ∨ ((∃ err, res = inl err) ∧ evsT = [IOInsertBlock d genesisBlock; IOClose d])
               ∨ ((∃ err, res = inl err) ∧ evsT = [IOClose d])))).
Proof.
  unfold loadBlockDB. cbv zeta.
  destruct (removeRegressionDB_events cfg w (blockDbPath cfg))
    as (w1 & err1 & evsR & -> & HR).
  assert (HR' : evsR = []
       ∨ (∃ text, evsR = [IOLog text; IORemoveAll (blockDbPath cfg)]
                  ∧ RegressionTest cfg = true ∧ Stat w (blockDbPath cfg) = inr true)
       ∨ (∃ text, evsR = [IOLog text; IORemove (blockDbPath cfg)]
                  ∧ RegressionTest cfg = true ∧ Stat w (blockDbPath cfg) = inr false)).
  { destruct HR as [(? & _)|[?|?]]; auto. }
  clear HR.
  destruct (OpenDB w1 (DbType cfg) (blockDbPath cfg)) as [w2 [[|e]|d]].
  - destruct (MkdirAll w2 (DataDir cfg)) as [w3 [e|]].
    { eexists _, _, evsR, [_; _], [], _. split; [by rewrite <- !(assoc_L (++)) |].
      split; [exact HR' |]. left. eauto 10. }
    destruct (CreateDB w3 (DbType cfg) (blockDbPath cfg)) as [w4 [e|d]].
    { eexists _, _, evsR, [_; _; _], [], _. split; [by rewrite <- !(assoc_L (++)) |].
      split; [exact HR' |]. left. eauto 10. }
    destruct (loadBlockDB_opened_cases w4 d
                (((evsR ++ [IOLog "[BMGR] Loading block database"])
                  ++ [IOOpenDB (DbType cfg) (blockDbPath cfg) None])
                 ++ [IOMkdirAll (DataDir cfg)]
                 ++ [IOCreateDB (DbType cfg) (blockDbPath cfg) (Some d)]))
      as (w' & res & evsT & Hrun & Hcases).
    rewrite (assoc_L (++) _ [IOMkdirAll (DataDir cfg)]) in Hrun. rewrite Hrun.
    eexists _, _, evsR, [_; _; _], evsT, _.
    split; [by rewrite <- !(assoc_L (++)) |]. split; [exact HR' |].
    right. exists d. split; [by right |].
    destruct Hcases as [(? & ? & _)|[(? & ? & _)|[(? & ? & _)|(? & ? & _)]]]; eauto 10.
  - eexists _, _, evsR, [_], [], _. split; [by rewrite <- !(assoc_L (++)) |].
    split; [exact HR' |]. left. eauto 10.
  - destruct (loadBlockDB_opened_cases w2 d
                ((evsR ++ [IOLog "[BMGR] Loading block database"])
                 ++ [IOOpenDB (DbType cfg) (blockDbPath cfg) (Some d)]))
      as (w' & res & evsT & Hrun & Hcases).
    rewrite Hrun. eexists _, _, evsR, [_], evsT, _.
    split; [by rewrite <- !(assoc_L (++)) |]. split; [exact HR' |].
    right. exists d. split; [by left |].
    destruct Hcases as [(? & ? & _)|[(? & ? & _)|[(? & ? & _)|(? & ? & _)]]]; eauto 10.
Qed.
(** X21.  [loadBlockDB] deletes nothing outside regression-test mode, and in
    that mode nothing but what is at the path of the database, and only if
    that path exists. *)
Theorem loadBlockDB_removes_only_db cfg w w' res evs path :
  loadBlockDB genesisBlock cfg w = (w', res, evs) →
  IORemoveAll path ∈ evs ∨ IORemove path ∈ evs →
  RegressionTest cfg = true ∧ path = blockDbPath cfg
  ∧ ∃ isDir, Stat w path = inr isDir.
Proof.
  destruct (loadBlockDB_cases cfg w)
    as (w1 & res1 & evsR & evsO & evsT & text & -> & HR & HO).
  intros [= <- <- <-] Hin.
  assert (Hrest : ∀ ev, ev ∈ [IOLog text] ++ evsO ++ evsT →
            ev ≠ IORemoveAll path ∧ ev ≠ IORemove path).
  { intros ev Hev.
    destruct HO as [(_ & -> & [-> | [-> | ->]]) | (d & [-> | ->] & HT)];
      try (destruct HT as [(_ & ? & ->)|[(_ & ? & ? & ->)|[(_ & ->)|(_ & ->)]]]);
      io_facts. }
  assert (HinR : IORemoveAll path ∈ evsR ∨ IORemove path ∈ evsR).
  { destruct Hin as [Hin|Hin]; apply elem_of_app in Hin as [?|Hin]; auto;
      destruct (Hrest _ Hin); congruence. }
  clear Hin Hrest.
  destruct HR as [->|[(t & -> & Hreg & Hstat)|(t & -> & Hreg & Hstat)]].
  - destruct HinR as [Hin|Hin]; by apply elem_of_nil in Hin.
  - assert (path = blockDbPath cfg) as -> by (destruct HinR; io_facts). eauto.
  - assert (path = blockDbPath cfg) as -> by (destruct HinR; io_facts). eauto.
Qed.

(** X22.  [loadBlockDB] always tries to open the database of the configured
    type at its path, whatever the removal did.  It makes the data directory
    and creates the database only after that open has failed, and after a
    successful open it does neither. *)
Theorem loadBlockDB_opens_then_creates cfg w w' res evs :
  loadBlockDB genesisBlock cfg w = (w', res, evs) →
  (∃ handle, IOOpenDB (DbType cfg) (blockDbPath cfg) handle ∈ evs)
  ∧ (∀ dbtype path handle,
       IOCreateDB dbtype path handle ∈ evs →
       dbtype = DbType cfg ∧ path = blockDbPath cfg
       ∧ IOOpenDB dbtype path None ∈ evs ∧ IOMkdirAll (DataDir cfg) ∈ evs)
  ∧ (∀ dbtype path d,
       IOOpenDB dbtype path (Some d) ∈ evs →
       (∀ dir, IOMkdirAll dir ∉ evs)
       ∧ ∀ dbtype' path' handle, IOCreateDB dbtype' path' handle ∉ evs).
Proof.
  destruct (loadBlockDB_cases cfg w)
    as (w1 & res1 & evsR & evsO & evsT & text & -> & HR & HO).
  intros [= <- <- <-].
  destruct HR as [->|[(t & -> & _)|(t & -> & _)]];
    (destruct HO as [(_ & -> & [-> | [-> | ->]]) | (d & [-> | ->] & HT)];
     try (destruct HT as [(_ & ? & ->)|[(_ & ? & ? & ->)|[(_ & ->)|(_ & ->)]]]));
    (split_and!; [eexists; io_facts | io_facts | io_facts]).
Qed.

(** X23.  No handle is lost: when [loadBlockDB] returns an error, every
    handle it had obtained has been closed; when it returns a handle, that
    is the handle it obtained and it has closed nothing. *)
Theorem loadBlockDB_closes_on_error cfg w w' res evs :
  loadBlockDB genesisBlock cfg w = (w', res, evs) →
  (∀ d, res = inr d →
        (IOOpenDB (DbType cfg) (blockDbPath cfg) (Some d) ∈ evs
         ∨ IOCreateDB (DbType cfg) (blockDbPath cfg) (Some d) ∈ evs)
        ∧ ∀ d', IOClose d' ∉ evs)
  ∧ (∀ err, res = inl err →
       ∀ dbtype path d,
         IOOpenDB dbtype path (Some d) ∈ evs ∨ IOCreateDB dbtype path (Some d) ∈ evs →
         IOClose d ∈ evs).
Proof.
  destruct (loadBlockDB_cases cfg w)
    as (w1 & res1 & evsR & evsO & evsT & text & -> & HR & HO).
  intros [= <- <- <-].
  destruct HR as [->|[(t & -> & _)|(t & -> & _)]];
    (destruct HO as [([e ->] & -> & [-> | [-> | ->]]) | (d & [-> | ->] & HT)];
     try (destruct HT as [(-> & ? & ->)|[(-> & ? & ? & ->)|[([e ->] & ->)|([e ->] & ->)]]]));
    (split; [intros d0 Hd0; try discriminate; injection Hd0 as <-; split; io_facts
            | intros err0 Herr0; try discriminate; io_facts]).
Qed.

(** X24.  Once a handle is there, the genesis block is inserted exactly when
    the database reports height -1, nothing else is ever inserted, the
    handle is closed exactly when an error is returned, and the handle
    returned is the one that came in. *)
Theorem loadBlockDB_genesis w d evs0 w' res evs :
  loadBlockDB_opened genesisBlock w d evs0 = (w', res, evs) →
  ∃ evs1,
    evs = evs0 ++ evs1
    ∧ (IOInsertBlock d genesisBlock ∈ evs1 ↔ ∃ hash, dbNewestSha w d = inr (hash, -1))
    ∧ (∀ d' blk, IOInsertBlock d' blk ∈ evs1 → d' = d ∧ blk = genesisBlock)
    ∧ (IOClose d ∈ evs1 ↔ ∃ err, res = inl err)
    ∧ (∀ d', res = inr d' → d' = d).
Proof.
  destruct (loadBlockDB_opened_cases w d evs0) as (w1 & res1 & evs1 & -> & Hcases).
  intros [= <- <- <-]. exists evs1. split; [done |].
  destruct Hcases
    as [(-> & [t ->] & hash & height & Hn & Hne)
       |[(-> & (t & t' & ->) & hash & Hn)
        |[([e ->] & -> & hash & Hn)|([e ->] & -> & e' & Hn)]]];
    rewrite Hn; split_and!;
    try (split; [intros Hin | intros [? ?]]); io_facts; eauto.
Qed.
End BlockDbFacts.

(** Regression-test mode over an old database directory: the directory is
    removed. *)
Lemma loadBlockDB_removes_only_db_witness :
  (∃ w' res (evs : list (ioEvent string)),
      loadBlockDB genesisDemo regtestCfg staleDisk = (w', res, evs)
      ∧ IORemoveAll "/data/blocks_leveldb" ∈ evs)
  ∧ RegressionTest regtestCfg = true
  ∧ ("/data/blocks_leveldb" : string) = blockDbPath regtestCfg
  ∧ ∃ isDir, Stat staleDisk "/data/blocks_leveldb" = inr isDir.
Proof.
  assert (Hrun : ∃ w' res (evs : list (ioEvent string)),
             loadBlockDB genesisDemo regtestCfg staleDisk = (w', res, evs)
             ∧ IORemoveAll "/data/blocks_leveldb" ∈ evs).
  { eexists _, _, _. split; [vm_compute; reflexivity |].
    apply list_elem_of_In; simpl; auto. }
  split; [exact Hrun |].
  destruct Hrun as (w' & res & evs & Hrun & Hin).
  exact (loadBlockDB_removes_only_db genesisDemo regtestCfg staleDisk w' res evs _
           Hrun (or_introl Hin)).
Defined.

(** A first start on an empty disk: the database is created after the open
    has failed and the data directory has been made. *)
Lemma loadBlockDB_opens_then_creates_witness :
  ∃ w' res (evs : list (ioEvent string)),
    loadBlockDB genesisDemo sqliteCfg emptyDisk = (w', res, evs)
    ∧ IOCreateDB "sqlite" "/data/blocks_sqlite.db" (Some "/data/blocks_sqlite.db"%string)
        ∈ evs
    ∧ IOOpenDB "sqlite" "/data/blocks_sqlite.db" None ∈ evs
    ∧ IOMkdirAll "/data" ∈ evs.
Proof.
  assert (Hrun : ∃ w' res (evs : list (ioEvent string)),
             loadBlockDB genesisDemo sqliteCfg emptyDisk = (w', res, evs)
             ∧ IOCreateDB "sqlite" "/data/blocks_sqlite.db"
                 (Some "/data/blocks_sqlite.db"%string) ∈ evs).
  { eexists _, _, _. split; [vm_compute; reflexivity |].
    apply list_elem_of_In; simpl; auto 10. }
  destruct Hrun as (w' & res & evs & Hrun & Hin).
  exists w', res, evs. split; [exact Hrun |]. split; [exact Hin |].
  destruct (loadBlockDB_opens_then_creates genesisDemo sqliteCfg emptyDisk w' res evs Hrun)
    as (_ & Hcreate & _).
  destruct (Hcreate _ _ _ Hin) as (_ & _ & Hopen & Hmkdir).
  split; [exact Hopen | exact Hmkdir].
Defined.

(** A fresh database that cannot be written: the insertion of the genesis
    block fails and the handle is closed. *)
Lemma loadBlockDB_closes_on_error_witness :
  ∃ w' err (evs : list (ioEvent string)),
    loadBlockDB genesisDemo sqliteCfg readOnlyDisk = (w', inl err, evs)
    ∧ IOOpenDB "sqlite" "/data/blocks_sqlite.db" (Some "/data/blocks_sqlite.db"%string)
        ∈ evs
    ∧ IOClose "/data/blocks_sqlite.db" ∈ evs.
Proof.
  assert (Hrun : ∃ w' err (evs : list (ioEvent string)),
             loadBlockDB genesisDemo sqliteCfg readOnlyDisk = (w', inl err, evs)
             ∧ IOOpenDB "sqlite" "/data/blocks_sqlite.db"
                 (Some "/data/blocks_sqlite.db"%string) ∈ evs).
  { eexists _, _, _. split; [vm_compute; reflexivity |].
    apply list_elem_of_In; simpl; auto 10. }
  destruct Hrun as (w' & err & evs & Hrun & Hin).
  exists w', err, evs. split; [exact Hrun |]. split; [exact Hin |].
  destruct (loadBlockDB_closes_on_error genesisDemo sqliteCfg readOnlyDisk w' (inl err) evs
              Hrun) as [_ Herr].
  exact (Herr err eq_refl _ _ _ (or_introl Hin)).
Defined.

(** A handle on a database of height -1: the genesis block is inserted. *)
Lemma loadBlockDB_genesis_witness :
  ∃ w' res (evs evs1 : list (ioEvent string)),
    loadBlockDB_opened genesisDemo readOnlyDisk "/data/blocks_sqlite.db"
      [IOLog "[BMGR] Loading block database"] = (w', res, evs)
    ∧ evs = [IOLog "[BMGR] Loading block database"] ++ evs1
    ∧ IOInsertBlock "/data/blocks_sqlite.db" genesisDemo ∈ evs1
    ∧ ∀ d', res = inr d' → d' = "/data/blocks_sqlite.db"%string.
Proof.
  assert (Hrun : ∃ w' res (evs : list (ioEvent string)),
             loadBlockDB_opened genesisDemo readOnlyDisk "/data/blocks_sqlite.db"
               [IOLog "[BMGR] Loading block database"] = (w', res, evs)).
  { eexists _, _, _. vm_compute; reflexivity. }
  destruct Hrun as (w' & res & evs & Hrun).
  destruct (loadBlockDB_genesis genesisDemo _ _ _ w' res evs Hrun)
    as (evs1 & Hevs & Hins & _ & _ & Hres).
  exists w', res, evs, evs1.
  split; [exact Hrun |]. split; [exact Hevs |].
  split; [apply Hins; exists zeroHash; reflexivity | exact Hres].
Defined.
